(** * HTTP authentication of swiss-cheese ([src/HttpAuth.ts])

    A shallow embedding of the client-side HTTP authentication code:
    the [WWW-Authenticate] parser, the choice between Digest and Basic,
    the Digest response computation and the [HttpAuthenticator] session
    object, followed by the properties of the specification that refer
    to them.  The random strings of [src/random.ts], the queue of
    [src/Queue.ts], the pool of [src/Pool.ts] and [logError] are
    embedded too, with properties of their own.

    Conventions of the embedding.
    - A JavaScript string is a [string]; every [ascii] stands for one
      code unit.  The embedding is exact on strings whose code units
      are below 256 (header text is ASCII).
    - [undefined] is [None]; a property bag such as [authInfo] is a
      finite map from property names to values.  Property names are
      ordinary own properties (the accessor name [__proto__] is outside
      the embedding).
    - A JavaScript number that holds a count or an index is an integer
      of [Z] (exact below 2^53).
    - A function that can throw returns a [Result]; a method of the
      session class is a state transformer that returns a [Result]
      together with the state the call leaves behind, also when it
      throws.
    - The hash primitive [crypto.createHash('md5')] and the Base64
      encoder of [Buffer] are parameters of the development; [MD5.md5]
      (RFC 1321) and [Base64.base64] (RFC 4648) instantiate them
      whenever a concrete value is computed.  [log.d] has no effect on
      results and is omitted. *)

From Stdlib Require Import ZArith String Ascii List Lia Bool.
From stdpp Require Import gmap strings.
Import ListNotations.
Open Scope string_scope.
Open Scope Z_scope.

(** ** Results and exceptions *)

(** The three kinds of exception the code can raise: [new Error(msg)],
    the [TypeError] of reading a property of [null], and the
    [SyntaxError] of [JSON.parse]. *)
Inductive exn : Type :=
| Error (msg : string)
| TypeError
| SyntaxError.

Inductive Result (A : Type) : Type :=
| Return (a : A)
| Throw (e : exn).

Arguments Return {A} a.
Arguments Throw {A} e.

(** [util.isSet] and [util.notSet]: neither [undefined] nor [null]. *)
Definition isSet {A} (obj : option A) : bool :=
  match obj with Some _ => true | None => false end.

Definition notSet {A} (obj : option A) : bool := negb (isSet obj).

(** ** The JavaScript runtime operations the code uses *)

Module Js.

(** The double quote, written by its code so that no literal needs one. *)
Definition DQ : ascii := "034"%char.
Definition BSL : ascii := "092"%char.

Definition quote (s : string) : string := String DQ s ++ String DQ "".

(** How a template literal or [+] renders a value that may be
    [undefined]. *)
Definition render (v : option string) : string :=
  match v with Some s => s | None => "undefined" end.

Fixpoint take (n : nat) (s : string) : string :=
  match n, s with
  | S n', String a s' => String a (take n' s')
  | _, _ => ""
  end.

Fixpoint drop (n : nat) (s : string) : string :=
  match n, s with
  | S n', String _ s' => drop n' s'
  | _, _ => s
  end.

Fixpoint find (c : ascii) (s : string) : option nat :=
  match s with
  | "" => None
  | String a s' =>
      if Ascii.eqb a c then Some O
      else match find c s' with Some i => Some (S i) | None => None end
  end.

Fixpoint findLast (c : ascii) (s : string) : option nat :=
  match s with
  | "" => None
  | String a s' =>
      match findLast c s' with
      | Some i => Some (S i)
      | None => if Ascii.eqb a c then Some O else None
      end
  end.

(** [s.indexOf(c)] and [s.lastIndexOf(c)] for a one-character [c]. *)
Definition indexOf (s : string) (c : ascii) : Z :=
  match find c s with Some i => Z.of_nat i | None => -1 end.

Definition lastIndexOf (s : string) (c : ascii) : Z :=
  match findLast c s with Some i => Z.of_nat i | None => -1 end.

Definition len (s : string) : Z := Z.of_nat (String.length s).

(** [s.substring(start, end)]: both indices are clamped to
    [0 .. s.length] and swapped when [start > end]. *)
Definition clamp (s : string) (i : Z) : nat :=
  Z.to_nat (Z.max 0 (Z.min i (len s))).

Definition substring (s : string) (start end_ : Z) : string :=
  let a := clamp s start in
  let b := clamp s end_ in
  take (Nat.max a b - Nat.min a b) (drop (Nat.min a b) s).

(** [s.substring(start)]. *)
Definition substringFrom (s : string) (start : Z) : string :=
  substring s start (len s).

Definition startsWith (s : string) (c : ascii) : bool :=
  match s with String a _ => Ascii.eqb a c | "" => false end.

Definition lowerChar (a : ascii) : ascii :=
  let n := nat_of_ascii a in
  if ((65 <=? n) && (n <=? 90))%nat then ascii_of_nat (n + 32)
  else if ((192 <=? n) && (n <=? 222) && negb (n =? 215))%nat
       then ascii_of_nat (n + 32)
  else a.

Fixpoint toLowerCase (s : string) : string :=
  match s with
  | "" => ""
  | String a s' => String (lowerChar a) (toLowerCase s')
  end.

(** White space of [trimLeft]: TAB, LF, VT, FF, CR, SP and NBSP. *)
Definition isWhiteSpace (a : ascii) : bool :=
  let n := nat_of_ascii a in
  ((9 <=? n) && (n <=? 13) || (n =? 32) || (n =? 160))%nat.

Fixpoint trimLeft (s : string) : string :=
  match s with
  | String a s' => if isWhiteSpace a then trimLeft s' else s
  | "" => ""
  end.

(** [s.split(c)] for a one-character separator: never the empty
    array, [''.split(',')] is [['']]. *)
Fixpoint splitAcc (c : ascii) (cur : string) (s : string) : list string :=
  match s with
  | "" => [cur]
  | String a s' =>
      if Ascii.eqb a c then cur :: splitAcc c "" s'
      else splitAcc c (cur ++ String a "") s'
  end.

Definition split (s : string) (c : ascii) : list string := splitAcc c "" s.

(** [arr.indexOf(x) >= 0] on an array of strings. *)
Definition includes (arr : list string) (x : string) : bool :=
  existsb (String.eqb x) arr.

(** *** JSON *)

Definition hexDigit (n : Z) : ascii :=
  match String.get (Z.to_nat n) "0123456789abcdef" with
  | Some a => a
  | None => "0"%char
  end.

(** The value of a hexadecimal digit, either case. *)
Definition hexValue (a : ascii) : option Z :=
  let n := Z.of_nat (nat_of_ascii a) in
  if (48 <=? n) && (n <=? 57) then Some (n - 48)
  else if (97 <=? n) && (n <=? 102) then Some (n - 87)
  else if (65 <=? n) && (n <=? 70) then Some (n - 55)
  else None.

(** [JSON.stringify] of one string: quotes, backslashes and control
    characters are escaped. *)
Definition escapeChar (a : ascii) : string :=
  let n := Z.of_nat (nat_of_ascii a) in
  if Ascii.eqb a DQ then String BSL (String DQ "")
  else if Ascii.eqb a BSL then String BSL (String BSL "")
  else if n =? 8 then String BSL "b"
  else if n =? 9 then String BSL "t"
  else if n =? 10 then String BSL "n"
  else if n =? 12 then String BSL "f"
  else if n =? 13 then String BSL "r"
  else if n <? 32 then
    String BSL ("u00" ++ String (hexDigit (n / 16)) (String (hexDigit (n mod 16)) ""))
  else String a "".

Fixpoint escape (s : string) : string :=
  match s with
  | "" => ""
  | String a s' => escapeChar a ++ escape s'
  end.

Definition stringifyString (s : string) : string := quote (escape s).

Fixpoint joinWith (sep : string) (l : list string) : string :=
  match l with
  | [] => ""
  | [x] => x
  | x :: l' => x ++ sep ++ joinWith sep l'
  end.

(** [JSON.stringify] of an array of strings. *)
Definition JSON_stringify (arr : list string) : string :=
  "[" ++ joinWith "," (List.map stringifyString arr) ++ "]".

Definition isJsonSpace (a : ascii) : bool :=
  let n := nat_of_ascii a in
  ((n =? 32) || (n =? 9) || (n =? 10) || (n =? 13))%nat.

Fixpoint allChars (p : ascii -> bool) (s : string) : bool :=
  match s with
  | "" => true
  | String a s' => p a && allChars p s'
  end.

(** The characters of a JSON string literal after its opening quote.
    [fuel] bounds the number of characters still to read; an escape
    [\uXXXX] denotes the code unit [XXXX], kept here modulo 256. *)
Fixpoint parseChars (fuel : nat) (s : string) (acc : string) : Result string :=
  match fuel with
  | O => Throw SyntaxError
  | S fuel' =>
      match s with
      | "" => Throw SyntaxError
      | String a s' =>
          if Ascii.eqb a DQ then
            if allChars isJsonSpace s' then Return acc else Throw SyntaxError
          else if Ascii.eqb a BSL then
            match s' with
            | String e s'' =>
                let lit (c : ascii) := parseChars fuel' s'' (acc ++ String c "") in
                if Ascii.eqb e DQ then lit DQ
                else if Ascii.eqb e BSL then lit BSL
                else if Ascii.eqb e "/" then lit "/"%char
                else if Ascii.eqb e "b" then lit "008"%char
                else if Ascii.eqb e "f" then lit "012"%char
                else if Ascii.eqb e "n" then lit "010"%char
                else if Ascii.eqb e "r" then lit "013"%char
                else if Ascii.eqb e "t" then lit "009"%char
                else if Ascii.eqb e "u" then
                  match s'' with
                  | String h1 (String h2 (String h3 (String h4 s4))) =>
                      match hexValue h1, hexValue h2, hexValue h3, hexValue h4 with
                      | Some _, Some _, Some v3, Some v4 =>
                          parseChars fuel' s4
                            (acc ++ String (ascii_of_nat (Z.to_nat (16 * v3 + v4))) "")
                      | _, _, _, _ => Throw SyntaxError
                      end
                  | _ => Throw SyntaxError
                  end
                else Throw SyntaxError
            | "" => Throw SyntaxError
            end
          else if (nat_of_ascii a <? 32)%nat then Throw SyntaxError
          else parseChars fuel' s' (acc ++ String a "")
      end
  end.

(** [JSON.parse] on a text whose first character is a double quote,
    which is the only way the header parser calls it: the text must be
    one string literal. *)
Definition JSON_parse (text : string) : Result string :=
  match text with
  | String a s' =>
      if Ascii.eqb a DQ then parseChars (String.length s') s' ""
      else Throw SyntaxError
  | "" => Throw SyntaxError
  end.

(** *** Regular expressions

    A backtracking matcher for the fragment of the regular expression
    syntax that the parser uses.  [rmatch r s k] tries the ways [r] can
    match a prefix of [s] in the order of the ECMAScript semantics
    (left alternative first, greedy repetition) and answers with the
    first one that the continuation [k] accepts on the remaining
    text. *)

Inductive regex : Type :=
| Chr (c : ascii)            (* a literal character *)
| NotChr (c : ascii)         (* [^c] *)
| Alt (r1 r2 : regex)        (* r1|r2 *)
| Seq (r1 r2 : regex)        (* r1r2 *)
| Star (r : regex)           (* r* *)
| Opt (r : regex).           (* r? *)

(** Greedy repetition of the matcher [m]: one more iteration is tried
    first; an iteration that consumes nothing is rejected, so
    [String.length s] iterations suffice. *)
Fixpoint starLoop (m : string -> (string -> option string) -> option string)
    (k : string -> option string) (n : nat) (s : string) : option string :=
  match n with
  | O => k s
  | S n' =>
      match m s (fun s' =>
                   if (String.length s' <? String.length s)%nat
                   then starLoop m k n' s' else None) with
      | Some rest => Some rest
      | None => k s
      end
  end.

Fixpoint rmatch (r : regex) (s : string) (k : string -> option string)
  {struct r} : option string :=
  match r with
  | Chr c =>
      match s with
      | String a s' => if Ascii.eqb a c then k s' else None
      | "" => None
      end
  | NotChr c =>
      match s with
      | String a s' => if Ascii.eqb a c then None else k s'
      | "" => None
      end
  | Alt r1 r2 =>
      match rmatch r1 s k with
      | Some rest => Some rest
      | None => rmatch r2 s k
      end
  | Seq r1 r2 => rmatch r1 s (fun s' => rmatch r2 s' k)
  | Opt r1 =>
      match rmatch r1 s k with
      | Some rest => Some rest
      | None => k s
      end
  | Star r1 => starLoop (rmatch r1) k (String.length s) s
  end.

(** The text matched at the start of [s], if any. *)
Definition matchAt (r : regex) (s : string) : option string :=
  match rmatch r s (fun rest => Some rest) with
  | Some rest => Some (take (String.length s - String.length rest) s)
  | None => None
  end.

(** [s.match(r)] for a regular expression without the [g] flag: the
    match at the leftmost position that has one, or [null].  Only
    element 0 of the resulting array (the matched text) is used by the
    code. *)
Fixpoint regexMatch (r : regex) (s : string) : option string :=
  match matchAt r s with
  | Some m => Some m
  | None =>
      match s with
      | String _ s' => regexMatch r s'
      | "" => None
      end
  end.

End Js.

Import Js.

(** ** Platform primitives: UTF-8, MD5 and Base64

    [Buffer.from(str)] and [hash.update(str)] read a string through
    its UTF-8 encoding; [crypto.createHash('md5')] is the MD5 function
    of RFC 1321 and [buf.toString('base64')] the Base64 encoding of
    RFC 4648.  They belong to the platform, not to the repository, and
    are written out here so that concrete headers can be computed. *)

(** UTF-8 bytes of a string whose code units are below 256. *)
Fixpoint utf8 (s : string) : list Z :=
  match s with
  | "" => []
  | String a s' =>
      let n := Z.of_nat (nat_of_ascii a) in
      if n <? 128 then n :: utf8 s'
      else Z.lor 192 (Z.shiftr n 6) :: Z.lor 128 (Z.land n 63) :: utf8 s'
  end.

Module MD5.

Definition add32 (a b : Z) : Z := (a + b) mod 2 ^ 32.

Definition rotl32 (x c : Z) : Z :=
  Z.lor (Z.shiftl x c mod 2 ^ 32) (Z.shiftr x (32 - c)).

Definition not32 (x : Z) : Z := Z.lxor x 0xffffffff.

Definition K : list Z :=
  [
   0xd76aa478; 0xe8c7b756; 0x242070db; 0xc1bdceee;
   0xf57c0faf; 0x4787c62a; 0xa8304613; 0xfd469501;
   0x698098d8; 0x8b44f7af; 0xffff5bb1; 0x895cd7be;
   0x6b901122; 0xfd987193; 0xa679438e; 0x49b40821;
   0xf61e2562; 0xc040b340; 0x265e5a51; 0xe9b6c7aa;
   0xd62f105d; 0x02441453; 0xd8a1e681; 0xe7d3fbc8;
   0x21e1cde6; 0xc33707d6; 0xf4d50d87; 0x455a14ed;
   0xa9e3e905; 0xfcefa3f8; 0x676f02d9; 0x8d2a4c8a;
   0xfffa3942; 0x8771f681; 0x6d9d6122; 0xfde5380c;
   0xa4beea44; 0x4bdecfa9; 0xf6bb4b60; 0xbebfbc70;
   0x289b7ec6; 0xeaa127fa; 0xd4ef3085; 0x04881d05;
   0xd9d4d039; 0xe6db99e5; 0x1fa27cf8; 0xc4ac5665;
   0xf4292244; 0x432aff97; 0xab9423a7; 0xfc93a039;
   0x655b59c3; 0x8f0ccc92; 0xffeff47d; 0x85845dd1;
   0x6fa87e4f; 0xfe2ce6e0; 0xa3014314; 0x4e0811a1;
   0xf7537e82; 0xbd3af235; 0x2ad7d2bb; 0xeb86d391
  ].

Definition shifts : list Z :=
  [ 7; 12; 17; 22;  7; 12; 17; 22;  7; 12; 17; 22;  7; 12; 17; 22;
    5;  9; 14; 20;  5;  9; 14; 20;  5;  9; 14; 20;  5;  9; 14; 20;
    4; 11; 16; 23;  4; 11; 16; 23;  4; 11; 16; 23;  4; 11; 16; 23;
    6; 10; 15; 21;  6; 10; 15; 21;  6; 10; 15; 21;  6; 10; 15; 21 ].

Definition word (l : list Z) (i : Z) : Z := nth (Z.to_nat i) l 0.

Record state : Type := State { sa : Z; sb : Z; sc : Z; sd : Z }.

Definition init : state :=
  State 0x67452301 0xefcdab89 0x98badcfe 0x10325476.

(** One of the 64 operations on the block [m] of sixteen words. *)
Definition operation (m : list Z) (st : state) (i : Z) : state :=
  let '(State a b c d) := st in
  let '(f, g) :=
    if i <? 16 then (Z.lor (Z.land b c) (Z.land (not32 b) d), i)
    else if i <? 32 then
      (Z.lor (Z.land d b) (Z.land (not32 d) c), (5 * i + 1) mod 16)
    else if i <? 48 then (Z.lxor b (Z.lxor c d), (3 * i + 5) mod 16)
    else (Z.lxor c (Z.lor b (not32 d)), (7 * i) mod 16) in
  let f' := add32 (add32 (add32 f a) (word K i)) (word m g) in
  State d (add32 b (rotl32 f' (word shifts i))) b c.

Definition rounds : list Z := List.map Z.of_nat (List.seq 0 64).

Definition block (st : state) (m : list Z) : state :=
  let '(State a b c d) := List.fold_left (operation m) rounds st in
  State (add32 (sa st) a) (add32 (sb st) b) (add32 (sc st) c) (add32 (sd st) d).

(** Little-endian bytes of a number, and back. *)
Fixpoint leBytes (n : nat) (x : Z) : list Z :=
  match n with
  | O => []
  | S n' => x mod 256 :: leBytes n' (x / 256)
  end.

Fixpoint leWords (fuel : nat) (bytes : list Z) : list Z :=
  match fuel, bytes with
  | S fuel', b0 :: b1 :: b2 :: b3 :: rest =>
      (b0 + 256 * (b1 + 256 * (b2 + 256 * b3))) :: leWords fuel' rest
  | _, _ => []
  end.

Definition pad (msg : list Z) : list Z :=
  let n := Z.of_nat (List.length msg) in
  let zeros := Z.to_nat ((55 - n) mod 64) in
  msg ++ 128 :: List.repeat 0 zeros ++ leBytes 8 ((8 * n) mod 2 ^ 64).

Fixpoint blocks (fuel : nat) (ws : list Z) (st : state) : state :=
  match fuel, ws with
  | S fuel', _ :: _ =>
      blocks fuel' (List.skipn 16 ws) (block st (List.firstn 16 ws))
  | _, _ => st
  end.

Definition hexByte (b : Z) : string :=
  String (hexDigit (b / 16)) (String (hexDigit (b mod 16)) "").

Fixpoint hexBytes (l : list Z) : string :=
  match l with
  | [] => ""
  | b :: l' => hexByte b ++ hexBytes l'
  end.

Definition digest (msg : list Z) : string :=
  let padded := pad msg in
  let ws := leWords (List.length padded) padded in
  let '(State a b c d) := blocks (List.length ws) ws init in
  hexBytes (leBytes 4 a ++ leBytes 4 b ++ leBytes 4 c ++ leBytes 4 d).

(** [crypto.createHash('md5').update(str).digest('hex')]. *)
Definition md5 (str : string) : string := digest (utf8 str).

End MD5.

Module Base64.

Definition alphabet : string :=
  "ABCDEFGHIJKLMNOPQRSTUVWXYZabcdefghijklmnopqrstuvwxyz0123456789+/".

Definition digit (n : Z) : ascii :=
  match String.get (Z.to_nat n) alphabet with
  | Some a => a
  | None => "="%char
  end.

Fixpoint encode (bytes : list Z) : string :=
  match bytes with
  | [] => ""
  | [b0] =>
      String (digit (b0 / 4)) (String (digit (b0 mod 4 * 16)) "==")
  | [b0; b1] =>
      String (digit (b0 / 4))
        (String (digit (b0 mod 4 * 16 + b1 / 16))
           (String (digit (b1 mod 16 * 4)) "="))
  | b0 :: b1 :: b2 :: rest =>
      String (digit (b0 / 4))
        (String (digit (b0 mod 4 * 16 + b1 / 16))
           (String (digit (b1 mod 16 * 4 + b2 / 64))
              (String (digit (b2 mod 64)) (encode rest))))
  end.

(** [Buffer.from(str).toString('base64')]. *)
Definition base64 (str : string) : string := encode (utf8 str).

End Base64.

(** ** [src/random.ts] *)

(** The bytes [crypto.randomBytes] will deliver, in order. *)
Definition Entropy : Type := nat -> Z.

(** [crypto.randomBytes(n)]: the next [n] bytes, and what is left. *)
Definition randomBytes (n : nat) (e : Entropy) : list Z * Entropy :=
  (List.map (fun i => e i mod 256) (List.seq 0 n), fun i => e (i + n)%nat).

Definition hexChars : string := "0123456789ABCDEF".

Definition hexCharAt (i : Z) : string :=
  match String.get (Z.to_nat i) hexChars with
  | Some a => String a ""
  | None => "undefined"
  end.

(** The loop [for (let i = 0; i < bufLen; i++)] of
    [createRandHexStringSync], over the first [bufLen] bytes. *)
Fixpoint hexPairs (buf : list Z) : string :=
  match buf with
  | [] => ""
  | rnum :: buf' =>
      hexCharAt (Z.shiftr rnum 4) ++ hexCharAt (Z.land rnum 15) ++ hexPairs buf'
  end.

Definition createRandHexStringSync (hexDigits : Z) (e : Entropy)
  : string * Entropy :=
  let odd := Z.land hexDigits 1 in
  let bufLen := Z.shiftr hexDigits 1 in
  let '(buf, e') := randomBytes (Z.to_nat (bufLen + odd)) e in
  let randStr := hexPairs (List.firstn (Z.to_nat bufLen) buf) in
  let randStr :=
    if odd =? 0 then randStr
    else randStr ++ hexCharAt (Z.land (nth (Z.to_nat bufLen) buf 0) 15) in
  (randStr, e').

Definition tooManyCharacters : string :=
  "Too many characters in pool. Must be 256 or less.".

(** [Math.floor(256 / charPoolLen) * charPoolLen - 1].  For an empty
    pool [256 / 0] is [Infinity], [Infinity * 0] is [NaN] and so is
    [max]: [None]. *)
Definition maxOf (charPoolLen : Z) : option Z :=
  if charPoolLen =? 0 then None
  else Some (256 / charPoolLen * charPoolLen - 1).

(** [rnum > max]; a comparison with [NaN] is false. *)
Definition exceeds (rnum : Z) (max : option Z) : bool :=
  match max with
  | Some max => max <? rnum
  | None => false
  end.

(** [fromChars[rnum % charPoolLen]] as [+=] appends it: for an empty
    pool the index is [NaN] and the element [undefined]. *)
Definition poolCharAt (fromChars : string) (rnum : Z) : string :=
  let charPoolLen := Z.of_nat (String.length fromChars) in
  if charPoolLen =? 0 then "undefined"
  else
    match String.get (Z.to_nat (Z.rem rnum charPoolLen)) fromChars with
    | Some a => String a ""
    | None => "undefined"
    end.

(** The loop [for (let i = 0; i < buf.length; i++)] of
    [createRandStringSync]. *)
Fixpoint sampleBuf (fromChars : string) (max : option Z) (buf : list Z)
    (randStr : string) (generatedChars : Z) : string * Z :=
  match buf with
  | [] => (randStr, generatedChars)
  | rnum :: buf' =>
      if exceeds rnum max then
        sampleBuf fromChars max buf' randStr generatedChars
      else
        sampleBuf fromChars max buf'
          (randStr ++ poolCharAt fromChars rnum) (generatedChars + 1)
  end.

(** The loop [while (generatedChars < strLen)]; [fuel] bounds the
    number of rounds, and [None] says that the bound was met. *)
Fixpoint sampleLoop (fuel : nat) (strLen : Z) (fromChars : string)
    (max : option Z) (randStr : string) (generatedChars : Z) (e : Entropy)
  : option (string * Entropy) :=
  if generatedChars <? strLen then
    match fuel with
    | O => None
    | S fuel' =>
        let '(buf, e') := randomBytes (Z.to_nat (strLen - generatedChars)) e in
        let '(randStr', generatedChars') :=
          sampleBuf fromChars max buf randStr generatedChars in
        sampleLoop fuel' strLen fromChars max randStr' generatedChars' e'
    end
  else Some (randStr, e).

Definition createRandStringSync (fuel : nat) (strLen : Z) (fromChars : string)
    (e : Entropy) : option (Result string * Entropy) :=
  let charPoolLen := Z.of_nat (String.length fromChars) in
  if 256 <? charPoolLen then Some (Throw (Error tooManyCharacters), e)
  else
    match sampleLoop fuel strLen fromChars (maxOf charPoolLen) "" 0 e with
    | Some (randStr, e') => Some (Return randStr, e')
    | None => None
    end.

(** ** [src/HttpAuth.ts]: the pure functions *)

(** [v === s] for a value that is a string or [undefined]. *)
Definition strictEq (v : option string) (s : string) : bool :=
  match v with Some x => String.eqb x s | None => false end.

(** [n.toString(16)] for an integer [n]: the digits, most significant
    first, after a minus sign for a negative [n].  [toHex fuel n]
    writes up to [fuel + 1] digits; the binary logarithm of [n] is
    fuel enough ([log2_fuel] below). *)
Fixpoint toHex (fuel : nat) (n : Z) : string :=
  match fuel with
  | O => String (hexDigit (n mod 16)) ""
  | S fuel' =>
      if n <? 16 then String (hexDigit n) ""
      else toHex fuel' (n / 16) ++ String (hexDigit (n mod 16)) ""
  end.

Definition toString16 (n : Z) : string :=
  if n <? 0 then "-" ++ toHex (Z.to_nat (Z.log2 (- n))) (- n)
  else toHex (Z.to_nat (Z.log2 n)) n.

Fixpoint repeat0 (n : nat) : string :=
  match n with
  | O => ""
  | S n' => String "0" (repeat0 n')
  end.

Definition toPaddedHexString (n : Z) (padTo : Z) : string :=
  let hexStr := toString16 n in
  repeat0 (Z.to_nat (Z.max 0 (padTo - len hexStr))) ++ hexStr.

(** The regular expression of the quoted attribute value: a quote,
    any number of times either a character other than a quote or a
    backslash followed by a quote, a quote, an optional comma, and any
    number of spaces. *)
Definition quotedValueRe : regex :=
  Seq (Chr DQ)
    (Seq (Star (Alt (NotChr DQ) (Seq (Chr BSL) (Chr DQ))))
       (Seq (Chr DQ) (Seq (Opt (Chr ",")) (Star (Chr " "))))).

Abbreviation AuthInfo := (gmap string string).

Definition couldNotParse (originalHeaderValue : string) : exn :=
  Error ("Could not parse WWW-Authenticate header " ++ quote originalHeaderValue).

(** What one turn of the [while] loop of [parseWwwAuthenticateHeader]
    does with the object under construction and the text left. *)
Inductive Step : Type :=
| Next (authInfo : AuthInfo) (headerValue : string)
| Stop (e : exn).

Definition parseStep (originalHeaderValue : string)
    (authInfo : AuthInfo) (headerValue : string) : Step :=
  let equalsIndex := indexOf headerValue "=" in
  let spaceIndex := indexOf headerValue " " in
  if (spaceIndex >=? 0) && (equalsIndex >=? 0) && (spaceIndex <? equalsIndex)
  then
    (* the next part is a scheme name, not an attribute *)
    let newAuthType := toLowerCase (substring headerValue 0 spaceIndex) in
    let headerValue := substringFrom headerValue (spaceIndex + 1) in
    Next (<["authType" := newAuthType]> authInfo) headerValue
  else if equalsIndex <? 0 then Stop (couldNotParse originalHeaderValue)
  else
    let key := substring headerValue 0 equalsIndex in
    let headerValue := substringFrom headerValue (equalsIndex + 1) in
    if startsWith headerValue DQ then
      match regexMatch quotedValueRe headerValue with
      | None => Stop TypeError          (* matches.length on null *)
      | Some stringValue =>
          (* a match array is never empty: the test
             [matches.length === 0] is false *)
          let stringValueWithoutTrailingCharacters :=
            substring stringValue 0 (lastIndexOf stringValue DQ + 1) in
          match JSON_parse stringValueWithoutTrailingCharacters with
          | Throw e => Stop e
          | Return v =>
              Next (<[key := v]> authInfo)
                   (substringFrom headerValue (len stringValue))
          end
      end
    else
      let endOfValue := indexOf headerValue "," in
      let endOfValue := if endOfValue <? 0 then len headerValue else endOfValue in
      Next (<[key := substring headerValue 0 endOfValue]> authInfo)
           (trimLeft (substringFrom headerValue (endOfValue + 1))).

(** The loop [while (headerValue.length > 0)].  Every turn shortens
    the text, so [fuel] above its length is never used up
    ([parseLoop_fuel] below); [None] stands for fuel used up. *)
Fixpoint parseLoop (fuel : nat) (originalHeaderValue : string)
    (authInfo : AuthInfo) (headerValue : string) : option (Result AuthInfo) :=
  match fuel with
  | O => None
  | S fuel' =>
      if 0 <? len headerValue then
        match parseStep originalHeaderValue authInfo headerValue with
        | Next authInfo' headerValue' =>
            parseLoop fuel' originalHeaderValue authInfo' headerValue'
        | Stop e => Some (Throw e)
        end
      else Some (Return authInfo)
  end.

(** The argument is a string by its type, so the test [isString] at
    the head of the function always passes. *)
Definition parseWwwAuthenticateHeader (headerValue : string) : Result AuthInfo :=
  match parseLoop (S (String.length headerValue)) headerValue ∅ headerValue with
  | Some r => r
  | None => Return ∅
  end.

(** The object [authInfos] of [setWwwAuthenticate], from scheme name
    to challenge, in the order the properties were created. *)
Abbreviation Challenges := (list (string * AuthInfo)).

Fixpoint getProp (authInfos : Challenges) (key : string) : option AuthInfo :=
  match authInfos with
  | [] => None
  | (k, v) :: rest => if String.eqb k key then Some v else getProp rest key
  end.

(** [authInfos[key] = v]: an existing property keeps its place. *)
Fixpoint setProp (authInfos : Challenges) (key : string) (v : AuthInfo)
  : Challenges :=
  match authInfos with
  | [] => [(key, v)]
  | (k, old) :: rest =>
      if String.eqb k key then (k, v) :: rest
      else (k, old) :: setProp rest key v
  end.

(** A property name that is an array index (a canonical numeral below
    2^32 - 1); [for ... in] visits those first, in ascending order. *)
Fixpoint decimalValue (acc : Z) (s : string) : option Z :=
  match s with
  | "" => Some acc
  | String a s' =>
      let n := Z.of_nat (nat_of_ascii a) in
      if (48 <=? n) && (n <=? 57) then decimalValue (10 * acc + (n - 48)) s'
      else None
  end.

Definition arrayIndex (key : string) : option Z :=
  match key with
  | "" => None
  | String a rest =>
      if Ascii.eqb a "0" && negb (String.eqb rest "") then None
      else match decimalValue 0 key with
           | Some v => if v <? 2 ^ 32 - 1 then Some v else None
           | None => None
           end
  end.

Fixpoint insertIndex (v : Z) (key : string) (l : list (Z * string))
  : list (Z * string) :=
  match l with
  | [] => [(v, key)]
  | (w, k) :: l' =>
      if v <? w then (v, key) :: l else (w, k) :: insertIndex v key l'
  end.

Fixpoint indexKeys (keys : list string) : list (Z * string) :=
  match keys with
  | [] => []
  | k :: keys' =>
      match arrayIndex k with
      | Some v => insertIndex v k (indexKeys keys')
      | None => indexKeys keys'
      end
  end.

(** The keys the loop [for (let key in authInfos)] pushes: every own
    property passes the [hasOwnProperty] test. *)
Definition ownKeys (authInfos : Challenges) : list string :=
  let keys := List.map fst authInfos in
  List.map snd (indexKeys keys)
    ++ List.filter (fun k => negb (isSet (arrayIndex k))) keys.

Definition noSupportedAuthorizationTypes (authInfos : Challenges) : exn :=
  Error ("No supported authorization types in " ++ JSON_stringify (ownKeys authInfos)).

Section HttpAuth.

(** [md5] of the source, that is [crypto.createHash('md5')] with a
    hexadecimal digest, and [Buffer.from(s).toString('base64')]. *)
Variable md5 : string -> string.
Variable base64 : string -> string.

(** Lines 228-235 of [createDigestResponse]: the value of [ha1], which
    stays [undefined] for an algorithm other than MD5 and MD5-sess. *)
Definition digestHA1 (authInfo : AuthInfo) (username password : option string)
    (clientNonce : option string) : option string :=
  if notSet (authInfo !! "algorithm") || strictEq (authInfo !! "algorithm") "MD5"
  then
    let a1 := render username ++ ":" ++ render (authInfo !! "realm") ++ ":"
              ++ render password in
    Some (md5 a1)
  else if strictEq (authInfo !! "algorithm") "MD5-sess" then
    let a1 := render username ++ ":" ++ render (authInfo !! "realm") ++ ":"
              ++ render password in
    let ha1Md5 := md5 a1 in
    Some (ha1Md5 ++ ":" ++ render (authInfo !! "nonce") ++ ":" ++ render clientNonce)
  else None.

(** Lines 237-243: the value of [ha2]. *)
Definition digestHA2 (method uri : string) (qopType : option string)
    (body : string) : option string :=
  if notSet qopType || strictEq qopType "auth" then
    let a2 := method ++ ":" ++ uri in
    Some (md5 a2)
  else if strictEq qopType "auth-int" then
    let a2 := method ++ ":" ++ uri ++ ":" ++ md5 body in
    Some (md5 a2)
  else None.

Definition createDigestResponse (authInfo : AuthInfo)
    (username password : option string) (method uri : string)
    (clientNonce : option string) (nonceCount : Z)
    (qopType : option string) (body : option string) : Result string :=
  let body := match body with Some b => b | None => "" end in
  let ha1 := digestHA1 authInfo username password clientNonce in
  let ha2 := digestHA2 method uri qopType body in
  if strictEq qopType "auth" || strictEq qopType "auth-int" then
    if notSet (authInfo !! "nonce") then Throw (Error "nonce must be set")
    else if notSet clientNonce then Throw (Error "cnonce must be set")
    else
      let responseString :=
        render ha1 ++ ":" ++ render (authInfo !! "nonce") ++ ":"
        ++ toPaddedHexString nonceCount 8 ++ ":" ++ render clientNonce ++ ":"
        ++ render qopType ++ ":" ++ render ha2 in
      Return (md5 responseString)
  else
    let responseString :=
      render ha1 ++ ":" ++ render (authInfo !! "nonce") ++ ":" ++ render ha2 in
    Return (md5 responseString).

(** Lines 176-186 of [createDigestAuthenticationString]: the choice of
    [qopType]; [Return None] is [null]. *)
Definition resolveQop (authInfo : AuthInfo) : Result (option string) :=
  let qops :=
    match authInfo !! "qop" with
    | Some qop => split qop ","
    | None => []
    end in
  if includes qops "auth-int" then Return (Some "auth-int")
  else if includes qops "auth" then Return (Some "auth")
  else if (List.length qops =? 0)%nat then Return None
  else if (0 <? List.length qops)%nat then
    Throw (Error ("No supported QOP type in " ++ JSON_stringify qops))
  else Return None.

Definition createDigestAuthenticationString (authInfo : AuthInfo)
    (username password : option string) (method uri : string)
    (clientNonce : option string) (nonceCount : Z) (body : option string)
  : Result string :=
  match resolveQop authInfo with
  | Throw e => Throw e
  | Return qopType =>
      match createDigestResponse authInfo username password method uri
              clientNonce nonceCount qopType body with
      | Throw e => Throw e
      | Return response =>
          let authString :=
            "Digest username=" ++ quote (render username)
            ++ ", realm=" ++ quote (render (authInfo !! "realm"))
            ++ ", nonce=" ++ quote (render (authInfo !! "nonce"))
            ++ ", uri=" ++ quote uri
            ++ ", response=" ++ quote response in
          let authString :=
            match authInfo !! "opaque" with
            | Some opaque => authString ++ ", opaque=" ++ quote opaque
            | None => authString
            end in
          let authString :=
            match qopType with
            | Some qop =>
                authString ++ ", qop=" ++ qop ++ ", nc="
                ++ toPaddedHexString nonceCount 8
                ++ ", cnonce=" ++ quote (render clientNonce)
            | None => authString
            end in
          Return authString
      end
  end.

Definition createBasicAuthenticationString (username password : option string)
  : string :=
  "Basic " ++ base64 (render username ++ ":" ++ render password).

(** ** [src/HttpAuth.ts]: the class [HttpAuthenticator] *)

Record HttpAuthenticator : Type := mkHttpAuthenticator {
  nonceCount : Z;
  authInfo : option AuthInfo;
  username : option string;
  password : option string;
  clientNonce : string
}.

(** A method runs on the object and the entropy of the process and
    leaves both behind, whether it returns or throws. *)
Definition Method (A : Type) : Type :=
  HttpAuthenticator * Entropy -> Result A * (HttpAuthenticator * Entropy).

Definition ret {A} (a : A) : Method A := fun st => (Return a, st).

Definition throw {A} (e : exn) : Method A := fun st => (Throw e, st).

Definition bind {A B} (m : Method A) (f : A -> Method B) : Method B :=
  fun st =>
    match m st with
    | (Return a, st') => f a st'
    | (Throw e, st') => (Throw e, st')
    end.

Definition lift {A} (r : Result A) : Method A := fun st => (r, st).

Definition getThis : Method HttpAuthenticator := fun st => (Return (fst st), st).

Definition setThis (f : HttpAuthenticator -> HttpAuthenticator) : Method unit :=
  fun st => (Return tt, (f (fst st), snd st)).

Definition randHex (hexDigits : Z) : Method string :=
  fun st =>
    let '(str, e') := createRandHexStringSync hexDigits (snd st) in
    (Return str, (fst st, e')).

Notation "'let!' x ':=' m 'in' k" := (bind m (fun x => k))
  (at level 10, x name, m at level 100, k at level 200).
Notation "'do!' m 'in' k" := (bind m (fun _ => k))
  (at level 10, m at level 100, k at level 200).

Definition set_nonceCount (n : Z) (this : HttpAuthenticator) :=
  mkHttpAuthenticator n (authInfo this) (username this) (password this)
    (clientNonce this).

Definition set_clientNonce (c : string) (this : HttpAuthenticator) :=
  mkHttpAuthenticator (nonceCount this) (authInfo this) (username this)
    (password this) c.

Definition set_authInfo (a : AuthInfo) (this : HttpAuthenticator) :=
  mkHttpAuthenticator (nonceCount this) (Some a) (username this)
    (password this) (clientNonce this).

Definition set_credentials (u p : string) (this : HttpAuthenticator) :=
  mkHttpAuthenticator (nonceCount this) (authInfo this) (Some u) (Some p)
    (clientNonce this).

(** [new HttpAuthenticator()]. *)
Definition construct (e : Entropy) : HttpAuthenticator * Entropy :=
  let '(str, e') := createRandHexStringSync 16 e in
  (mkHttpAuthenticator 1 None None None str, e').

Definition setCredentials (u p : string) : Method unit :=
  setThis (set_credentials u p).

Definition getUsername : Method (option string) :=
  let! this := getThis in ret (username this).

Definition getPassword : Method (option string) :=
  let! this := getThis in ret (password this).

Definition isValid : Method bool :=
  let! this := getThis in
  ret (isSet (authInfo this) && isSet (username this) && isSet (password this)).

Definition preconditionFailed : exn :=
  Error "Precondition failed. Call updateWwwAuthenticate() first with the value of the WWW-Authenticate header.".

Definition getAuthorizationHeader (method uri : string) (body : option string)
  : Method string :=
  let! this := getThis in
  match authInfo this with
  | None => throw preconditionFailed
  | Some info =>
      if strictEq (info !! "authType") "digest" then
        (* the argument [this.nonceCount++] is evaluated, and the
           counter stored, before the call *)
        let count := nonceCount this in
        do! setThis (set_nonceCount (count + 1)) in
        lift (createDigestAuthenticationString info (username this)
                (password this) method uri (Some (clientNonce this)) count body)
      else if strictEq (info !! "authType") "basic" then
        ret (createBasicAuthenticationString (username this) (password this))
      else
        throw (Error ("Internal error: unknown auth type "
                      ++ quote (render (info !! "authType"))))
  end.

(** Reading [this.authInfo.stale] of an unset [authInfo] is a
    [TypeError]. *)
Definition previousFailedRequestWasStale : Method bool :=
  let! this := getThis in
  match authInfo this with
  | None => throw TypeError
  | Some info =>
      ret (match info !! "stale" with
           | Some stale => String.eqb (toLowerCase stale) "true"
           | None => false
           end)
  end.

(** The argument of [setWwwAuthenticate]: one header value or an array
    of them. *)
Inductive HeaderValues : Type :=
| One (value : string)
| Many (values : list string).

(** The loop over the array: parse each value and file the challenge
    under its scheme; the first value that fails to parse ends it. *)
Fixpoint parseAll (values : list string) (authInfos : Challenges)
  : Result Challenges :=
  match values with
  | [] => Return authInfos
  | value :: rest =>
      match parseWwwAuthenticateHeader value with
      | Throw e => Throw e
      | Return info =>
          parseAll rest (setProp authInfos (render (info !! "authType")) info)
      end
  end.

(** Lines 94-110: Digest before Basic, else the error that lists the
    schemes on offer. *)
Definition selectChallenge (authInfos : Challenges) : Result AuthInfo :=
  match getProp authInfos "digest" with
  | Some digest => Return digest
  | None =>
      match getProp authInfos "basic" with
      | Some basic => Return basic
      | None => Throw (noSupportedAuthorizationTypes authInfos)
      end
  end.

Definition setWwwAuthenticate (wwwAuthenticate : HeaderValues) : Method unit :=
  let authInfos : Challenges := [] in
  do! setThis (set_nonceCount 1) in
  let! cnonce := randHex 16 in
  do! setThis (set_clientNonce cnonce) in
  let! authInfos := lift (match wwwAuthenticate with
                          | Many values => parseAll values authInfos
                          | One value => parseAll [value] authInfos
                          end) in
  let! chosen := lift (selectChallenge authInfos) in
  setThis (set_authInfo chosen).


End HttpAuth.

(** ** [src/Queue.ts]

    The nodes of a queue are objects that the queue and its iterators
    share, so they live in a heap: a location is the index of a node in
    the list of the nodes allocated so far.  The type [T] of the
    elements holds no [null]; [null] and [undefined] are [None]. *)

Module Queue.
Section Queue.

Context {T : Type}.

Record QueueNode : Type := mkQueueNode { obj : T; next : option nat }.

Local Abbreviation Heap := (list QueueNode).

Record Queue : Type := mkQueue { head : option nat; tail : option nat }.

(** [new Queue()]: no field is initialised. *)
Definition new : Queue := mkQueue None None.

(** An object literal [{obj, next}] makes a new node. *)
Definition alloc (node : QueueNode) (h : Heap) : nat * Heap :=
  (List.length h, (h ++ [node])%list).

(** [node.next] and [node.obj] of the node at a location. *)
Definition nextOf (h : Heap) (l : nat) : option nat :=
  match h !! l with
  | Some node => next node
  | None => None
  end.

Definition objOf (h : Heap) (l : nat) : option T :=
  match h !! l with
  | Some node => Some (obj node)
  | None => None
  end.

(** [node.next = v] *)
Definition setNext (l : nat) (v : option nat) (h : Heap) : Heap :=
  alter (fun node => mkQueueNode (obj node) v) l h.

(** [pushBack]; the test [notSet(this.tail)] is the match on [tail]. *)
Definition pushBack (x : T) (st : Heap * Queue) : Heap * Queue :=
  let '(h, this) := st in
  match tail this with
  | None =>
      let '(l, h) := alloc (mkQueueNode x None) h in
      (h, mkQueue (Some l) (Some l))
  | Some t =>
      let '(l, h) := alloc (mkQueueNode x None) h in
      let h := setNext t (Some l) h in
      (h, mkQueue (head this) (nextOf h t))
  end.

(** [popFront]: [null] on an empty queue. *)
Definition popFront (st : Heap * Queue) : option T * (Heap * Queue) :=
  let '(h, this) := st in
  match head this with
  | None => (None, st)
  | Some oldHead =>
      let this := mkQueue (nextOf h oldHead) (tail this) in
      let this :=
        if notSet (head this) then mkQueue (head this) None else this in
      (objOf h oldHead, (h, this))
  end.

Definition isEmpty (st : Heap * Queue) : bool := notSet (head (snd st)).

Definition clear (st : Heap * Queue) : Heap * Queue :=
  (fst st, mkQueue None None).

Definition pushFront (x : T) (st : Heap * Queue) : Heap * Queue :=
  let '(h, this) := st in
  let '(newHead, h) := alloc (mkQueueNode x (head this)) h in
  (h, mkQueue (Some newHead) (tail this)).

Record IteratorResult : Type := mkResult { value : option T; done : bool }.

(** [queue[Symbol.iterator]()]: the iterator is its variable
    [currentNode]. *)
Definition iterator (st : Heap * Queue) : option nat := head (snd st).

(** The method [next] of the iterator, on the heap as it is when the
    call is made: the result, and the new [currentNode]. *)
Definition iteratorNext (h : Heap) (currentNode : option nat)
  : IteratorResult * option nat :=
  match currentNode with
  | None => (mkResult None true, None)
  | Some c =>
      let done := notSet (nextOf h c) in
      let result :=
        if done then mkResult (objOf h c) true
        else mkResult (objOf h c) false in
      (result, nextOf h c)
  end.

End Queue.

Arguments QueueNode T : clear implicits.
Arguments IteratorResult T : clear implicits.

Abbreviation Heap T := (list (QueueNode T)).

End Queue.

(** ** [src/Pool.ts]

    The queue of a pool holds what [get] takes out of it, a [T] or
    [null].  [createElement] is a function of the client, which may
    change the client's own state [W]. *)

Module Pool.
Section Pool.

Context {T W : Type}.

Variable createElement : W -> T * W.

(** The queue of the pool, and the state of the client. *)
Definition State : Type := (Queue.Heap (option T) * Queue.Queue) * W.

Record PoolObject : Type := mkPoolObject {
  item : option T;
  doneWithItemCallback : State -> State
}.

(** [new Pool(createElement)] *)
Definition new (w : W) : State := (([], Queue.new), w).

Definition get (st : State) : PoolObject * State :=
  let '(queue, w) := st in
  let '(value, queue, w) :=
    if Queue.isEmpty queue then
      let '(value, w) := createElement w in (Some value, queue, w)
    else
      let '(value, queue) := Queue.popFront queue in
      (match value with Some value => value | None => None end, queue, w) in
  (mkPoolObject value
     (fun '(queue, w) => (Queue.pushBack value queue, w)),
   (queue, w)).

End Pool.

Arguments PoolObject T W : clear implicits.
Arguments State T W : clear implicits.

End Pool.

(** ** [src/error.ts]: [logError] *)

(** [n.toString()] for an integer [n], as [toString16] above. *)
Fixpoint toDec (fuel : nat) (n : Z) : string :=
  match fuel with
  | O => String (hexDigit (n mod 10)) ""
  | S fuel' =>
      if n <? 10 then String (hexDigit n) ""
      else toDec fuel' (n / 10) ++ String (hexDigit (n mod 10)) ""
  end.

Definition toString10 (n : Z) : string :=
  if n <? 0 then "-" ++ toDec (Z.to_nat (Z.log2 (- n))) (- n)
  else toDec (Z.to_nat (Z.log2 n)) n.

(** What [logError] reads of the error it is given: the number
    [status] of an [ScError], and [message] and [stack] of every
    [Error]. *)
Record ErrorObject : Type := mkErrorObject {
  status : option Z;
  message : option string;
  stack : option string
}.

Definition LF : ascii := "010"%char.

(** [logError]; the last component is the list of the messages handed
    to [log.e].  Reading [errObj['status']] of [null] or [undefined]
    raises a [TypeError]. *)
Definition logError (err : option ErrorObject) (e : Entropy)
    (logged : list string) : Result string * (Entropy * list string) :=
  let '(errorID, e) := createRandHexStringSync 8 e in
  match err with
  | None => (Throw TypeError, (e, logged))
  | Some errObj =>
      let statusStr :=
        if isSet (status errObj)
        then "Status " ++ match status errObj with
                          | Some n => toString10 n
                          | None => "undefined"
                          end ++ ", "
        else "" in
      let logPrefix := "[Error " ++ errorID ++ "]: " in
      let msg := logPrefix ++ statusStr ++ String LF "" in
      let msg :=
        if notSet err then msg ++ "<NULL ERROR OBJECT>"
        else if notSet (stack errObj) then msg ++ render (message errObj)
        else msg ++ render (stack errObj) in
      (Return errorID, (e, (logged ++ [msg])%list))
  end.

(** ** Definitions used to state the properties *)

(** Reading a text as a hexadecimal numeral, most significant digit
    first: the inverse that the specification measures
    [toPaddedHexString] against.  The empty text is no numeral. *)
Fixpoint parseHexAcc (acc : Z) (s : string) : option Z :=
  match s with
  | "" => Some acc
  | String a s' =>
      match hexValue a with
      | Some v => parseHexAcc (16 * acc + v) s'
      | None => None
      end
  end.

Definition parseHex (s : string) : option Z :=
  match s with
  | "" => None
  | _ => parseHexAcc 0 s
  end.


(** The challenge of RFC 2617, section 3.5. *)
Definition rfc2617 : AuthInfo :=
  <["realm" := "testrealm@host.com"]>
    (<["nonce" := "dcd98b7102dd2f0e8b11d0f600bfb0c093"]>
       (<["opaque" := "5ccc069c403ebaf9f0171e9517f40e41"]> ∅)).

(** The part of [quotedValueRe] that is repeated. *)
Definition quotedBody : regex := Alt (NotChr DQ) (Seq (Chr BSL) (Chr DQ)).

(** The states the loop passes through: [reaches orig st st'] when the
    loop started in [st] arrives in [st'] after some turns. *)
Inductive reaches (orig : string) : AuthInfo * string -> AuthInfo * string -> Prop :=
| reaches_here (st : AuthInfo * string) : reaches orig st st
| reaches_turn (info info' : AuthInfo) (h h' : string) (st : AuthInfo * string) :
    h <> "" ->
    parseStep orig info h = Next info' h' ->
    reaches orig (info', h') st ->
    reaches orig (info, h) st.


(** The header values of a call, as the list the parser goes through. *)
Definition valuesOf (wwwAuthenticate : HeaderValues) : list string :=
  match wwwAuthenticate with
  | One value => [value]
  | Many values => values
  end.

(** The object after the two assignments that open
    [setWwwAuthenticate]. *)
Definition afterReset (st : HttpAuthenticator * Entropy)
  : HttpAuthenticator * Entropy :=
  let '(cnonce, e') := createRandHexStringSync 16 (snd st) in
  (set_clientNonce cnonce (set_nonceCount 1 (fst st)), e').


(** *** Definitions for the further properties *)

(** A digit of the uppercase hexadecimal alphabet. *)
Definition isUpperHex (a : ascii) : bool :=
  let n := Z.of_nat (nat_of_ascii a) in
  (48 <=? n) && (n <=? 57) || (65 <=? n) && (n <=? 70).

(** The separator that the regular expression takes after a quoted
    value: an optional comma and the spaces that follow; and what is
    left of the text after it. *)
Fixpoint dropSpaces (s : string) : string :=
  match s with
  | String a s' => if Ascii.eqb a " " then dropSpaces s' else s
  | "" => ""
  end.

Definition afterSeparator (t : string) : string :=
  match t with
  | String a t' => if Ascii.eqb a "," then dropSpaces t' else dropSpaces t
  | "" => ""
  end.








(** A text that a JSON string literal holds as it is: no quote, no
    backslash, no control character. *)
Definition plainChar (a : ascii) : bool :=
  negb (Ascii.eqb a DQ) && negb (Ascii.eqb a BSL)
  && negb (nat_of_ascii a <? 32)%nat.



(** The calls a user of the class can make, and the session after a
    series of them. *)
Inductive Call : Type :=
| CallSetCredentials (u p : string)
| CallGetUsername
| CallGetPassword
| CallIsValid
| CallGetAuthorizationHeader (method uri : string) (body : option string)
| CallPreviousFailedRequestWasStale
| CallSetWwwAuthenticate (wwwAuthenticate : HeaderValues).

Definition runCall (md5 base64 : string -> string) (c : Call)
    (st : HttpAuthenticator * Entropy) : HttpAuthenticator * Entropy :=
  match c with
  | CallSetCredentials u p => snd (setCredentials u p st)
  | CallGetUsername => snd (getUsername st)
  | CallGetPassword => snd (getPassword st)
  | CallIsValid => snd (isValid st)
  | CallGetAuthorizationHeader method uri body =>
      snd (getAuthorizationHeader md5 base64 method uri body st)
  | CallPreviousFailedRequestWasStale => snd (previousFailedRequestWasStale st)
  | CallSetWwwAuthenticate hv => snd (setWwwAuthenticate hv st)
  end.

Definition runCalls (md5 base64 : string -> string) (calls : list Call)
    (st : HttpAuthenticator * Entropy) : HttpAuthenticator * Entropy :=
  List.fold_left (fun st c => runCall md5 base64 c st) calls st.


(** *** [createRandStringSync] *)

(** A byte that [createRandStringSync] uses for a pool of the given
    length. *)
Definition accepted (charPoolLen : Z) (rnum : Z) : bool :=
  negb (exceeds rnum (maxOf charPoolLen)).

(** The characters of the accepted bytes among [buf]. *)
Definition poolChars (fromChars : string) (buf : list Z) : string :=
  List.fold_right (fun rnum s => poolCharAt fromChars rnum ++ s) ""
    (List.filter (accepted (Z.of_nat (String.length fromChars))) buf).

(** The number of accepted bytes among [buf]. *)
Definition acceptedCount (fromChars : string) (buf : list Z) : Z :=
  Z.of_nat (List.length
    (List.filter (accepted (Z.of_nat (String.length fromChars))) buf)).



Fixpoint inPool (fromChars : string) (a : ascii) : bool :=
  match fromChars with
  | "" => false
  | String b fromChars' => Ascii.eqb a b || inPool fromChars' a
  end.

Fixpoint repeatText (n : nat) (s : string) : string :=
  match n with
  | O => ""
  | S n' => s ++ repeatText n' s
  end.

(** *** The queue *)

Section QueueProperties.

Context {T : Type}.

(** The calls of a client of the queue, and what they answer. *)
Inductive QueueCall : Type :=
| QPushBack (x : T)
| QPopFront
| QIsEmpty
| QClear
| QPushFront (x : T).

Inductive QueueAnswer : Type :=
| QVoid
| QPopped (x : option T)
| QEmpty (b : bool).

Definition queueCall (c : QueueCall) (st : Queue.Heap T * Queue.Queue)
  : QueueAnswer * (Queue.Heap T * Queue.Queue) :=
  match c with
  | QPushBack x => (QVoid, Queue.pushBack x st)
  | QPopFront => let '(x, st) := Queue.popFront st in (QPopped x, st)
  | QIsEmpty => (QEmpty (Queue.isEmpty st), st)
  | QClear => (QVoid, Queue.clear st)
  | QPushFront x => (QVoid, Queue.pushFront x st)
  end.

Fixpoint queueCalls (cs : list QueueCall) (st : Queue.Heap T * Queue.Queue)
  : list QueueAnswer * (Queue.Heap T * Queue.Queue) :=
  match cs with
  | [] => ([], st)
  | c :: cs' =>
      let '(a, st) := queueCall c st in
      let '(answers, st) := queueCalls cs' st in
      (a :: answers, st)
  end.

(** A queue that nobody has used yet. *)
Definition newQueue : Queue.Heap T * Queue.Queue := ([], Queue.new).

(** The same calls on a list: the first element is the front. *)
Definition listCall (c : QueueCall) (xs : list T) : QueueAnswer * list T :=
  match c with
  | QPushBack x => (QVoid, (xs ++ [x])%list)
  | QPopFront =>
      match xs with
      | [] => (QPopped None, [])
      | x :: xs' => (QPopped (Some x), xs')
      end
  | QIsEmpty => (QEmpty match xs with [] => true | _ => false end, xs)
  | QClear => (QVoid, [])
  | QPushFront x => (QVoid, x :: xs)
  end.

Fixpoint listCalls (cs : list QueueCall) (xs : list T)
  : list QueueAnswer * list T :=
  match cs with
  | [] => ([], xs)
  | c :: cs' =>
      let '(a, xs) := listCall c xs in
      let '(answers, xs) := listCalls cs' xs in
      (a :: answers, xs)
  end.

(** No [pushFront] is made on an empty queue. *)
Fixpoint pushFrontOnFilled (cs : list QueueCall) (xs : list T) : bool :=
  match cs with
  | [] => true
  | c :: cs' =>
      match c, xs with
      | QPushFront _, [] => false
      | _, _ => pushFrontOnFilled cs' (snd (listCall c xs))
      end
  end.

(** The values that [for (const x of queue)] hands to its body: the
    loop calls [next] until a result says [done], and does not look at
    the value of that result. *)
Fixpoint forOf (fuel : nat) (h : Queue.Heap T) (currentNode : option nat)
  : option (list (option T)) :=
  match fuel with
  | O => None
  | S fuel' =>
      let '(result, currentNode) := Queue.iteratorNext h currentNode in
      if Queue.done result then Some []
      else
        match forOf fuel' h currentNode with
        | Some values => Some (Queue.value result :: values)
        | None => None
        end
  end.

(** The values that [while (!queue.isEmpty()) queue.popFront()]
    takes out. *)
Fixpoint drain (fuel : nat) (st : Queue.Heap T * Queue.Queue)
  : option (list (option T)) :=
  if Queue.isEmpty st then Some []
  else
    match fuel with
    | O => None
    | S fuel' =>
        let '(x, st) := Queue.popFront st in
        match drain fuel' st with
        | Some values => Some (x :: values)
        | None => None
        end
    end.

(** The nodes from the head on, with their locations. *)
Definition locOf (nodes : list (nat * T)) : option nat :=
  match nodes with
  | [] => None
  | (l, _) :: _ => Some l
  end.

Fixpoint lastLoc (nodes : list (nat * T)) : option nat :=
  match nodes with
  | [] => None
  | (l, _) :: nodes' =>
      match nodes' with
      | [] => Some l
      | _ :: _ => lastLoc nodes'
      end
  end.

Fixpoint chain (h : Queue.Heap T) (nodes : list (nat * T)) : Prop :=
  match nodes with
  | [] => True
  | (l, x) :: nodes' =>
      h !! l = Some (Queue.mkQueueNode x (locOf nodes')) /\ chain h nodes'
  end.

(** The queue holds [nodes]; [attached] says that [tail] is the last
    of them. *)
Definition holds (st : Queue.Heap T * Queue.Queue) (nodes : list (nat * T))
    (attached : bool) : Prop :=
  chain (fst st) nodes
  /\ List.NoDup (List.map fst nodes)
  /\ Queue.head (snd st) = locOf nodes
  /\ Queue.tail (snd st) = if attached then lastLoc nodes else None.

End QueueProperties.

Arguments QueueCall T : clear implicits.
Arguments QueueAnswer T : clear implicits.

(** *** The pool *)

Section PoolProperties.

Context {T W : Type}.

Variable createElement : W -> T * W.

(** What a client does: it asks for an object, or it calls the
    callback of the object that it was handed as number [k]. *)
Inductive PoolCall : Type :=
| PGet
| PDone (k : nat).

Definition poolCall (c : PoolCall)
    (run : list (Pool.PoolObject T W) * Pool.State T W)
  : list (Pool.PoolObject T W) * Pool.State T W :=
  let '(handed, st) := run in
  match c with
  | PGet =>
      let '(o, st) := Pool.get createElement st in ((handed ++ [o])%list, st)
  | PDone k =>
      match handed !! k with
      | Some o => (handed, Pool.doneWithItemCallback o st)
      | None => (handed, st)
      end
  end.

Definition poolCalls (cs : list PoolCall) (w : W)
  : list (Pool.PoolObject T W) * Pool.State T W :=
  List.fold_left (fun run c => poolCall c run) cs ([], Pool.new w).

(** The same on a list of the items that wait to be handed out again:
    the items handed out so far, the items that wait, and the state of
    the client. *)
Definition freeListCall (c : PoolCall) (run : list T * list T * W)
  : list T * list T * W :=
  let '(handed, free, w) := run in
  match c with
  | PGet =>
      match free with
      | [] => let '(x, w) := createElement w in ((handed ++ [x])%list, [], w)
      | x :: free' => ((handed ++ [x])%list, free', w)
      end
  | PDone k =>
      match handed !! k with
      | Some x => (handed, (free ++ [x])%list, w)
      | None => (handed, free, w)
      end
  end.

Definition freeListCalls (cs : list PoolCall) (w : W) : list T * list T * W :=
  List.fold_left (fun run c => freeListCall c run) cs ([], [], w).

(** The object that [get] hands out for an item. *)
Definition handsOut (o : Pool.PoolObject T W) (x : T) : Prop :=
  Pool.item o = Some x
  /\ forall queue w,
       Pool.doneWithItemCallback o (queue, w)
       = (Queue.pushBack (Some x) queue, w).

(** The pool and the list of waiting items go together. *)
Definition poolAgrees (run : list (Pool.PoolObject T W) * Pool.State T W)
    (model : list T * list T * W) : Prop :=
  let '(objects, (queue, w)) := run in
  let '(handed, free, w') := model in
  List.Forall2 handsOut objects handed
  /\ w = w'
  /\ exists nodes,
       holds queue nodes true /\ List.map snd nodes = List.map Some free.

End PoolProperties.

(** ** Checks of the embedding against published values *)

Example md5_rfc1321_empty : MD5.md5 "" = "d41d8cd98f00b204e9800998ecf8427e".
Proof. vm_compute. reflexivity. Qed.

Example md5_rfc1321_abc : MD5.md5 "abc" = "900150983cd24fb0d6963f7d28e17f72".
Proof. vm_compute. reflexivity. Qed.

Example md5_rfc1321_two_blocks :
  MD5.md5 "12345678901234567890123456789012345678901234567890123456789012345678901234567890"
  = "57edf4a22be3c955ac49da2e2107b67a".
Proof. vm_compute. reflexivity. Qed.

Example rfc2617_qop_auth :
  createDigestAuthenticationString MD5.md5 (<["qop" := "auth"]> rfc2617)
    (Some "Mufasa") (Some "Circle Of Life") "GET" "/dir/index.html"
    (Some "0a4f113b") 1 None
  = Return ("Digest username=" ++ quote "Mufasa"
            ++ ", realm=" ++ quote "testrealm@host.com"
            ++ ", nonce=" ++ quote "dcd98b7102dd2f0e8b11d0f600bfb0c093"
            ++ ", uri=" ++ quote "/dir/index.html"
            ++ ", response=" ++ quote "6629fae49393a05397450978507c4ef1"
            ++ ", opaque=" ++ quote "5ccc069c403ebaf9f0171e9517f40e41"
            ++ ", qop=auth, nc=00000001, cnonce=" ++ quote "0a4f113b").
Proof. vm_compute. reflexivity. Qed.

Example rfc2069_no_qop :
  createDigestAuthenticationString MD5.md5 rfc2617
    (Some "Mufasa") (Some "CircleOfLife") "GET" "/dir/index.html"
    (Some "0a4f113b") 1 None
  = Return ("Digest username=" ++ quote "Mufasa"
            ++ ", realm=" ++ quote "testrealm@host.com"
            ++ ", nonce=" ++ quote "dcd98b7102dd2f0e8b11d0f600bfb0c093"
            ++ ", uri=" ++ quote "/dir/index.html"
            ++ ", response=" ++ quote "1949323746fe6a43ef61f9606e7febea"
            ++ ", opaque=" ++ quote "5ccc069c403ebaf9f0171e9517f40e41").
Proof. vm_compute. reflexivity. Qed.

(** The header of RFC 2617, parsed: no algorithm and no stale come out
    of a header that has none. *)
Example parse_rfc2617 :
  parseWwwAuthenticateHeader
    ("Digest realm=" ++ quote "testrealm@host.com"
     ++ ", qop=" ++ quote "auth,auth-int"
     ++ ", nonce=" ++ quote "dcd98b7102dd2f0e8b11d0f600bfb0c093"
     ++ ", opaque=" ++ quote "5ccc069c403ebaf9f0171e9517f40e41")
  = Return (<["authType" := "digest"]> (<["qop" := "auth,auth-int"]> rfc2617)).
Proof. vm_compute. reflexivity. Qed.

(** A bare scheme name has no [=] and does not parse. *)
Example parse_bare_scheme :
  parseWwwAuthenticateHeader "NTLM" = Throw (couldNotParse "NTLM").
Proof. vm_compute. reflexivity. Qed.

(** ** Facts about strings *)

Lemma append_cons (a : ascii) (s t : string) :
  String a s ++ t = String a (s ++ t).
Proof. reflexivity. Qed.

Lemma append_nil_l (t : string) : "" ++ t = t.
Proof. reflexivity. Qed.

Lemma append_nil_r (s : string) : s ++ "" = s.
Proof.
  induction s as [|a s IH]; [reflexivity|].
  rewrite append_cons, IH. reflexivity.
Qed.

Lemma append_assoc (s t u : string) : (s ++ t) ++ u = s ++ (t ++ u).
Proof.
  induction s as [|a s IH]; [reflexivity|].
  rewrite !append_cons, IH. reflexivity.
Qed.

Lemma length_append (s t : string) :
  String.length (s ++ t) = (String.length s + String.length t)%nat.
Proof.
  induction s as [|a s IH]; [reflexivity|].
  rewrite append_cons. simpl. rewrite IH. reflexivity.
Qed.

Lemma length_repeat0 (n : nat) : String.length (repeat0 n) = n.
Proof. induction n as [|n IH]; simpl; congruence. Qed.

(** ** Hexadecimal text *)

Lemma small_cases (d : Z) :
  0 <= d < 16 ->
  d = 0 \/ d = 1 \/ d = 2 \/ d = 3 \/ d = 4 \/ d = 5 \/ d = 6 \/ d = 7 \/
  d = 8 \/ d = 9 \/ d = 10 \/ d = 11 \/ d = 12 \/ d = 13 \/ d = 14 \/ d = 15.
Proof. lia. Qed.

Ltac each_digit d H :=
  let C := fresh "C" in
  pose proof (small_cases d H) as C;
  repeat (destruct C as [C | C]; [subst d; vm_compute; reflexivity |]);
  subst d; vm_compute; reflexivity.

Lemma hexValue_hexDigit (d : Z) : 0 <= d < 16 -> hexValue (hexDigit d) = Some d.
Proof. intros H. each_digit d H. Qed.


Lemma parseHexAcc_append (s t : string) (acc : Z) :
  parseHexAcc acc (s ++ t) =
  match parseHexAcc acc s with
  | Some v => parseHexAcc v t
  | None => None
  end.
Proof.
  revert acc. induction s as [|a s IH]; intros acc; [reflexivity|].
  rewrite append_cons. simpl. destruct (hexValue a); [apply IH | reflexivity].
Qed.

Lemma parseHexAcc_repeat0 (n : nat) (s : string) :
  parseHexAcc 0 (repeat0 n ++ s) = parseHexAcc 0 s.
Proof.
  induction n as [|n IH]; [reflexivity|].
  simpl repeat0. rewrite append_cons. simpl. exact IH.
Qed.

Lemma toHex_nonempty (fuel : nat) (n : Z) : toHex fuel n <> "".
Proof.
  destruct fuel as [|fuel]; simpl; [discriminate|].
  destruct (n <? 16); [discriminate|].
  destruct (toHex fuel (n / 16)); discriminate.
Qed.

(** With fuel for every digit, [toHex] writes the numeral of [n]. *)
Lemma parseHexAcc_toHex (fuel : nat) :
  forall n, 0 <= n < 16 ^ Z.of_nat (S fuel) ->
            parseHexAcc 0 (toHex fuel n) = Some n.
Proof.
  induction fuel as [|fuel IH]; intros n Hn.
  - change (16 ^ Z.of_nat 1) with 16 in Hn. simpl.
    rewrite Z.mod_small by lia. rewrite hexValue_hexDigit by lia.
    f_equal; lia.
  - simpl toHex. destruct (Z.ltb_spec n 16) as [Hlt | Hge].
    + simpl. rewrite hexValue_hexDigit by lia. f_equal; lia.
    + rewrite parseHexAcc_append, IH.
      * simpl. rewrite hexValue_hexDigit by (apply Z.mod_pos_bound; lia).
        f_equal; pose proof (Z.div_mod n 16); lia.
      * split; [apply Z.div_pos; lia|].
        apply Z.div_lt_upper_bound; [lia|].
        rewrite <- Z.pow_succ_r by lia. rewrite <- Nat2Z.inj_succ. lia.
Qed.



Lemma log2_fuel (n : Z) : 0 <= n -> n < 16 ^ Z.of_nat (S (Z.to_nat (Z.log2 n))).
Proof.
  intros Hn. destruct (Z.eq_dec n 0) as [-> | Hne]; [reflexivity|].
  pose proof (Z.log2_nonneg n) as Hl.
  rewrite Nat2Z.inj_succ, Z2Nat.id by lia.
  assert (Hs : n < 2 ^ Z.succ (Z.log2 n)) by (apply Z.log2_spec; lia).
  eapply Z.lt_le_trans; [exact Hs|].
  apply Z.pow_le_mono_l. lia.
Qed.

Lemma toString16_nonneg (n : Z) :
  0 <= n -> toString16 n = toHex (Z.to_nat (Z.log2 n)) n.
Proof.
  intros Hn. unfold toString16.
  destruct (Z.ltb_spec n 0); [lia | reflexivity].
Qed.

Lemma parseHex_toPaddedHexString (n padTo : Z) :
  0 <= n -> parseHex (toPaddedHexString n padTo) = Some n.
Proof.
  intros Hn. unfold toPaddedHexString. rewrite toString16_nonneg by lia.
  set (hexStr := toHex _ n).
  assert (Hpad : parseHexAcc 0 (repeat0 (Z.to_nat (Z.max 0 (padTo - len hexStr))) ++ hexStr)
                 = Some n).
  { rewrite parseHexAcc_repeat0. apply parseHexAcc_toHex.
    split; [exact Hn | apply log2_fuel, Hn]. }
  unfold parseHex.
  destruct (repeat0 _ ++ hexStr) eqn:E; [|exact Hpad].
  exfalso. apply (f_equal String.length) in E.
  rewrite length_append in E. simpl in E.
  pose proof (toHex_nonempty (Z.to_nat (Z.log2 n)) n) as Hne.
  fold hexStr in Hne. destruct hexStr; [congruence | simpl in E; lia].
Qed.

Lemma length_toPaddedHexString_ge (n padTo : Z) :
  padTo <= Z.of_nat (String.length (toPaddedHexString n padTo)).
Proof.
  unfold toPaddedHexString. rewrite length_append, length_repeat0.
  unfold len. lia.
Qed.


(** C7. For every nonce count [n] between 0 and 0xFFFFFFFF,
    [toPaddedHexString n 8] has at least eight characters and reads
    back, as a hexadecimal numeral, as [n]. *)
Theorem toPaddedHexString_roundtrip (n : Z) :
  0 <= n <= 0xFFFFFFFF ->
  (8 <= String.length (toPaddedHexString n 8))%nat /\
  parseHex (toPaddedHexString n 8) = Some n.
Proof.
  intros Hn. split.
  - pose proof (length_toPaddedHexString_ge n 8). lia.
  - apply parseHex_toPaddedHexString. lia.
Qed.

Lemma toPaddedHexString_roundtrip_witness :
  (8 <= String.length (toPaddedHexString 0x1a2b 8))%nat /\
  parseHex (toPaddedHexString 0x1a2b 8) = Some 0x1a2b.
Proof. apply (toPaddedHexString_roundtrip 0x1a2b). lia. Defined.

(** ** Facts about the runtime operations *)

Lemma length_take (n : nat) (s : string) :
  String.length (take n s) = Nat.min n (String.length s).
Proof.
  revert s. induction n as [|n IH]; intros [|a s]; simpl; auto.
Qed.

Lemma length_drop (n : nat) (s : string) :
  String.length (drop n s) = (String.length s - n)%nat.
Proof.
  revert s. induction n as [|n IH]; intros [|a s]; simpl; auto.
Qed.

Lemma take_all (n : nat) (s : string) :
  (String.length s <= n)%nat -> take n s = s.
Proof.
  revert s. induction n as [|n IH]; intros [|a s] H; simpl in *;
    try reflexivity; try lia.
  rewrite IH by lia. reflexivity.
Qed.

Lemma drop_append (s t : string) : drop (String.length s) (s ++ t) = t.
Proof. induction s as [|a s IH]; [destruct t; reflexivity | exact IH]. Qed.

Lemma length_substring_le (s : string) (a b : Z) :
  (String.length (substring s a b) <= String.length s)%nat.
Proof. unfold substring. rewrite length_take, length_drop. lia. Qed.

Lemma substringFrom_drop (s : string) (i : Z) :
  0 <= i <= len s -> substringFrom s i = drop (Z.to_nat i) s.
Proof.
  intros Hi. unfold substringFrom, substring, clamp, len in *.
  replace (Z.to_nat (Z.max 0 (Z.min i (Z.of_nat (String.length s)))))
    with (Z.to_nat i) by lia.
  replace (Z.to_nat (Z.max 0 (Z.min (Z.of_nat (String.length s))
                                    (Z.of_nat (String.length s)))))
    with (String.length s) by lia.
  rewrite Nat.min_l, Nat.max_r by lia.
  apply take_all. rewrite length_drop. lia.
Qed.

Lemma length_trimLeft_le (s : string) :
  (String.length (trimLeft s) <= String.length s)%nat.
Proof.
  induction s as [|a s IH]; simpl; [lia|].
  destruct (isWhiteSpace a); simpl; lia.
Qed.

Lemma find_lt (c : ascii) (s : string) (i : nat) :
  find c s = Some i -> (i < String.length s)%nat.
Proof.
  revert i. induction s as [|a s IH]; intros i; simpl; [discriminate|].
  destruct (Ascii.eqb a c); [intros [= <-]; lia|].
  destruct (find c s) as [j|]; [|discriminate].
  intros [= <-]. specialize (IH j eq_refl). lia.
Qed.

Lemma indexOf_range (s : string) (c : ascii) : -1 <= indexOf s c < len s.
Proof.
  unfold indexOf, len. destruct (find c s) as [i|] eqn:E; [|lia].
  apply find_lt in E. lia.
Qed.

(** The first occurrence of [c] in a text that has none before a
    given point. *)
Lemma find_append_first (c : ascii) (s t : string) :
  find c s = None -> find c (s ++ String c t) = Some (String.length s).
Proof.
  induction s as [|a s IH]; simpl.
  - intros _. rewrite Ascii.eqb_refl. reflexivity.
  - destruct (Ascii.eqb a c) eqn:E; [discriminate|].
    destruct (find c s); [discriminate|]. intros _.
    rewrite IH; reflexivity.
Qed.

Lemma find_append_none (c : ascii) (s t : string) :
  find c s = None ->
  find c (s ++ t) =
  match find c t with
  | Some i => Some (String.length s + i)%nat
  | None => None
  end.
Proof.
  induction s as [|a s IH]; simpl.
  - intros _. rewrite ?append_nil_l. destruct (find c t); reflexivity.
  - destruct (Ascii.eqb a c) eqn:E; [discriminate|].
    destruct (find c s); [discriminate|]. intros _.
    rewrite IH by reflexivity.
    destruct (find c t); reflexivity.
Qed.

(** *** The bounds of the recursions are never met *)

(** [JSON.parse]: every step reads at least one character, so any
    bound from the length of the text on gives the same result. *)
Lemma parseChars_fuel :
  forall f1 f2 s acc,
    (String.length s <= f1)%nat -> (String.length s <= f2)%nat ->
    parseChars f1 s acc = parseChars f2 s acc.
Proof.
  induction f1 as [|f1 IH]; intros f2 s acc H1 H2.
  - destruct s; [|simpl in H1; lia]. destruct f2; reflexivity.
  - destruct f2 as [|f2]; [destruct s; [reflexivity | simpl in H2; lia]|].
    destruct s as [|a s]; [reflexivity|]. simpl in H1, H2. simpl.
    destruct (Ascii.eqb a DQ); [reflexivity|].
    destruct (Ascii.eqb a BSL); [|destruct (_ <? 32)%nat;
                                   [reflexivity | apply IH; lia]].
    destruct s as [|e s]; [reflexivity|]. simpl in H1, H2.
    repeat match goal with
           | |- context [if Ascii.eqb e ?c then _ else _] =>
               destruct (Ascii.eqb e c); [apply IH; lia|]
           end.
    destruct (Ascii.eqb e "u"); [|reflexivity].
    destruct s as [|h1 [|h2 [|h3 [|h4 s]]]]; try reflexivity.
    simpl in H1, H2.
    destruct (hexValue h1), (hexValue h2), (hexValue h3), (hexValue h4);
      try reflexivity.
    apply IH; lia.
Qed.

(** The matcher answers only through its continuation. *)
Lemma starLoop_ext (m : string -> (string -> option string) -> option string) :
  (forall s k1 k2, (forall x, k1 x = k2 x) -> m s k1 = m s k2) ->
  forall n s k1 k2,
    (forall x, k1 x = k2 x) -> starLoop m k1 n s = starLoop m k2 n s.
Proof.
  intros Hm. induction n as [|n IH]; intros s k1 k2 Hk; simpl; [apply Hk|].
  rewrite (Hm s _ (fun s' =>
                     if (String.length s' <? String.length s)%nat
                     then starLoop m k2 n s' else None)).
  - rewrite Hk. reflexivity.
  - intros x. destruct (_ <? _)%nat; [apply IH, Hk | reflexivity].
Qed.

Lemma rmatch_ext (r : regex) :
  forall s k1 k2, (forall x, k1 x = k2 x) -> rmatch r s k1 = rmatch r s k2.
Proof.
  induction r as [c | c | r1 IH1 r2 IH2 | r1 IH1 r2 IH2 | r1 IH1 | r1 IH1];
    intros s k1 k2 Hk; simpl.
  - destruct s as [|a s]; [reflexivity|]. destruct (Ascii.eqb a c); auto.
  - destruct s as [|a s]; [reflexivity|]. destruct (Ascii.eqb a c); auto.
  - rewrite (IH1 s k1 k2 Hk), (IH2 s k1 k2 Hk). reflexivity.
  - apply IH1. intros x. apply IH2, Hk.
  - apply starLoop_ext; assumption.
  - rewrite (IH1 s k1 k2 Hk), Hk. reflexivity.
Qed.

Lemma starLoop_none (m : string -> (string -> option string) -> option string) :
  (forall s k, (forall x, k x = None) -> m s k = None) ->
  forall n s k, (forall x, k x = None) -> starLoop m k n s = None.
Proof.
  intros Hm. induction n as [|n IH]; intros s k Hk; simpl; [apply Hk|].
  rewrite Hm; [apply Hk|].
  intros x. destruct (_ <? _)%nat; [apply IH, Hk | reflexivity].
Qed.

Lemma rmatch_none (r : regex) :
  forall s k, (forall x, k x = None) -> rmatch r s k = None.
Proof.
  induction r as [c | c | r1 IH1 r2 IH2 | r1 IH1 r2 IH2 | r1 IH1 | r1 IH1];
    intros s k Hk; simpl.
  - destruct s as [|a s]; [reflexivity|]. destruct (Ascii.eqb a c); auto.
  - destruct s as [|a s]; [reflexivity|]. destruct (Ascii.eqb a c); auto.
  - rewrite (IH1 s k Hk). apply IH2, Hk.
  - apply IH1. intros x. apply IH2, Hk.
  - apply starLoop_none; assumption.
  - rewrite (IH1 s k Hk). apply Hk.
Qed.

(** A repetition never needs more iterations than the text has
    characters: any bound from the length on gives the same match. *)
Lemma starLoop_fuel (r : regex) (k : string -> option string) :
  forall n n' s,
    (String.length s <= n)%nat -> (String.length s <= n')%nat ->
    starLoop (rmatch r) k n s = starLoop (rmatch r) k n' s.
Proof.
  assert (Hempty : forall n, starLoop (rmatch r) k n "" = k "").
  { intros [|n]; simpl; [reflexivity|].
    rewrite rmatch_none; [reflexivity|]. intros x. reflexivity. }
  induction n as [|n IH]; intros n' s Hn Hn'.
  - destruct s; [|simpl in Hn; lia]. rewrite !Hempty. reflexivity.
  - destruct n' as [|n'].
    + destruct s; [|simpl in Hn'; lia]. rewrite !Hempty. reflexivity.
    + simpl. erewrite rmatch_ext; [reflexivity|].
      intros x. simpl.
      destruct (Nat.ltb_spec (String.length x) (String.length s));
        [apply IH; lia | reflexivity].
Qed.

(** *** The regular expression of the quoted value *)

Lemma rmatch_quotedBody_cons (a : ascii) (s : string)
    (k : string -> option string) :
  rmatch quotedBody (String a s) k =
  match (if Ascii.eqb a DQ then None else k s) with
  | Some rest => Some rest
  | None =>
      if Ascii.eqb a BSL then
        match s with
        | String b s' => if Ascii.eqb b DQ then k s' else None
        | "" => None
        end
      else None
  end.
Proof. reflexivity. Qed.

(** On a text without a double quote the repetition of the body never
    reaches a continuation that needs one. *)
Lemma starLoop_no_quote (k : string -> option string) :
  (forall s, find DQ s = None -> k s = None) ->
  forall n s, find DQ s = None -> starLoop (rmatch quotedBody) k n s = None.
Proof.
  intros Hk. induction n as [|n IH]; intros s Hs; [apply Hk, Hs|].
  cbn [starLoop]. destruct s as [|a s].
  - simpl. apply Hk. reflexivity.
  - rewrite rmatch_quotedBody_cons.
    pose proof Hs as Hs'. simpl in Hs'.
    destruct (Ascii.eqb a DQ) eqn:Ea; [discriminate|].
    destruct (find DQ s) as [j|] eqn:Es; [discriminate|].
    cbn [String.length].
    replace (String.length s <? S (String.length s))%nat with true
      by (symmetry; apply Nat.ltb_lt; lia).
    rewrite IH by exact Es.
    destruct (Ascii.eqb a BSL); [|apply Hk, Hs].
    destruct s as [|b s']; [apply Hk, Hs|].
    simpl in Es. destruct (Ascii.eqb b DQ); [discriminate | apply Hk, Hs].
Qed.

Lemma rmatch_quoted_no_head (s : string) (k : string -> option string) :
  startsWith s DQ = false -> rmatch quotedValueRe s k = None.
Proof.
  destruct s as [|a s]; simpl; [reflexivity|]. intros ->. reflexivity.
Qed.

Lemma find_none_startsWith (c : ascii) (s : string) :
  find c s = None -> startsWith s c = false.
Proof.
  destruct s as [|a s]; simpl; [reflexivity|].
  destruct (Ascii.eqb a c); [discriminate | reflexivity].
Qed.

Lemma regexMatch_no_quote (s : string) :
  find DQ s = None -> regexMatch quotedValueRe s = None.
Proof.
  induction s as [|a s IH]; intros Hs.
  - reflexivity.
  - simpl regexMatch. unfold matchAt.
    rewrite rmatch_quoted_no_head by (apply find_none_startsWith, Hs).
    apply IH. simpl in Hs.
    destruct (Ascii.eqb a DQ); [discriminate|].
    destruct (find DQ s); [discriminate | reflexivity].
Qed.

(** An opening quote with no second quote after it: [match] answers
    [null]. *)
Lemma regexMatch_unterminated (rest : string) :
  find DQ rest = None -> regexMatch quotedValueRe (String DQ rest) = None.
Proof.
  intros Hrest. simpl regexMatch.
  assert (E : matchAt quotedValueRe (String DQ rest) = None).
  { unfold matchAt, quotedValueRe. simpl rmatch.
    fold quotedBody. rewrite starLoop_no_quote; [reflexivity| |exact Hrest].
    intros s Hs. destruct s as [|a s]; [reflexivity|].
    simpl in Hs. destruct (Ascii.eqb a DQ); [discriminate | reflexivity]. }
  rewrite E. apply regexMatch_no_quote, Hrest.
Qed.

(** ** The parser terminates *)

Lemma length_substringFrom (s : string) (i : Z) :
  0 <= i < len s ->
  Z.of_nat (String.length (substringFrom s i)) = len s - i.
Proof.
  intros Hi. rewrite substringFrom_drop by lia.
  rewrite length_drop. unfold len in *. lia.
Qed.

(** Every turn of the loop that goes on leaves a shorter text. *)
Lemma parseStep_shorter (orig : string) (info info' : AuthInfo) (h h' : string) :
  parseStep orig info h = Next info' h' ->
  (String.length h' < String.length h)%nat.
Proof.
  unfold parseStep.
  pose proof (indexOf_range h "=") as He.
  pose proof (indexOf_range h " ") as Hs.
  destruct ((indexOf h " " >=? 0) && (indexOf h "=" >=? 0)
            && (indexOf h " " <? indexOf h "=")) eqn:Hscheme.
  - intros [= _ <-].
    apply andb_true_iff in Hscheme as [Hscheme _].
    apply andb_true_iff in Hscheme as [Hsp _].
    apply Z.geb_le in Hsp.
    pose proof (length_substringFrom h (indexOf h " " + 1)) as L.
    unfold len in *.
    destruct (Z.eq_dec (indexOf h " " + 1) (Z.of_nat (String.length h))) as [E|E].
    + pose proof (length_substring_le h (indexOf h " " + 1) (len h)) as L2.
      unfold substringFrom. rewrite E.
      unfold substring, clamp, len.
      rewrite length_take, length_drop. lia.
    + lia.
  - destruct (Z.ltb_spec (indexOf h "=") 0) as [Hneg | Hpos]; [discriminate|].
    set (h1 := substringFrom h (indexOf h "=" + 1)).
    assert (L1 : (String.length h1 < String.length h)%nat).
    { unfold h1, substringFrom, substring, clamp, len in *.
      rewrite length_take, length_drop. lia. }
    destruct (startsWith h1 DQ).
    + destruct (regexMatch quotedValueRe h1) as [m|]; [|discriminate].
      destruct (JSON_parse _); [|discriminate].
      intros [= _ <-].
      pose proof (length_substring_le h1 (len m) (len h1)) as L2.
      unfold substringFrom. lia.
    + intros [= _ <-].
      match goal with
      | |- (String.length (trimLeft ?x) < _)%nat =>
          pose proof (length_trimLeft_le x) as L2
      end.
      match type of L2 with
      | (_ <= String.length (substringFrom ?s ?i))%nat =>
          pose proof (length_substring_le s i (len s)) as L3
      end.
      unfold substringFrom in *. lia.
Qed.

(** Fuel above the length of the text is never used up, and more fuel
    changes nothing. *)
Lemma parseLoop_fuel (orig : string) :
  forall f1 f2 info h,
    (String.length h < f1)%nat -> (String.length h < f2)%nat ->
    parseLoop f1 orig info h = parseLoop f2 orig info h.
Proof.
  induction f1 as [|f1 IH]; intros f2 info h H1 H2; [lia|].
  destruct f2 as [|f2]; [lia|]. simpl.
  destruct (0 <? len h); [|reflexivity].
  destruct (parseStep orig info h) as [info' h'|e] eqn:E; [|reflexivity].
  apply parseStep_shorter in E. apply IH; lia.
Qed.

Lemma parseLoop_total (orig : string) :
  forall fuel info h,
    (String.length h < fuel)%nat ->
    exists r, parseLoop fuel orig info h = Some r.
Proof.
  induction fuel as [|fuel IH]; intros info h H; [lia|]. simpl.
  destruct (0 <? len h); [|eauto].
  destruct (parseStep orig info h) as [info' h'|e] eqn:E; [|eauto].
  apply parseStep_shorter in E. apply IH. lia.
Qed.

(** [parseWwwAuthenticateHeader] is the loop run to its end: the
    result of the function is the result of the loop for any fuel
    above the length of the header. *)
Lemma parseWwwAuthenticateHeader_loop (h : string) (fuel : nat) :
  (String.length h < fuel)%nat ->
  parseLoop fuel h ∅ h = Some (parseWwwAuthenticateHeader h).
Proof.
  intros H. unfold parseWwwAuthenticateHeader.
  rewrite (parseLoop_fuel h fuel (S (String.length h))) by lia.
  destruct (parseLoop_total h (S (String.length h)) ∅ h) as [r ->]; [lia|].
  reflexivity.
Qed.

Lemma nonempty_len (h : string) : h <> "" -> (0 <? len h) = true.
Proof.
  intros H. destruct h as [|a h]; [congruence|].
  apply Z.ltb_lt. unfold len. simpl. lia.
Qed.

Lemma parseLoop_reaches_state (orig : string) (st st' : AuthInfo * string) :
  reaches orig st st' ->
  forall f f',
    (String.length (snd st) < f)%nat -> (String.length (snd st') < f')%nat ->
    parseLoop f orig (fst st) (snd st) = parseLoop f' orig (fst st') (snd st').
Proof.
  induction 1 as [st | info info' h h' st Hne Hstep Hreach IH]; intros f f' Hf Hf'.
  - apply parseLoop_fuel; assumption.
  - simpl in *. destruct f as [|f]; [lia|]. simpl.
    rewrite nonempty_len, Hstep by assumption.
    apply IH; [|assumption].
    apply parseStep_shorter in Hstep. lia.
Qed.

Lemma parseLoop_reaches (orig : string) (info info' : AuthInfo) (h h' : string) :
  reaches orig (info, h) (info', h') ->
  forall f f',
    (String.length h < f)%nat -> (String.length h' < f')%nat ->
    parseLoop f orig info h = parseLoop f' orig info' h'.
Proof.
  intros Hreach f f' Hf Hf'.
  exact (parseLoop_reaches_state orig _ _ Hreach f f' Hf Hf').
Qed.

(** ** C10: an opening quote that is never closed *)

(** The turn of the loop that meets an attribute whose value opens
    with a quote, with no quote in the [rest] after it, reads
    [matches.length] of [null]. *)
Lemma parseStep_unterminated (orig : string) (info : AuthInfo) (key rest : string) :
  find "=" key = None -> find " " key = None -> find DQ rest = None ->
  parseStep orig info (key ++ String "=" (String DQ rest)) = Stop TypeError.
Proof.
  intros Hk1 Hk2 Hrest. unfold parseStep.
  set (h := key ++ String "=" (String DQ rest)).
  assert (Eeq : indexOf h "=" = len key).
  { unfold indexOf, h. rewrite find_append_first by exact Hk1. reflexivity. }
  assert (Esp : indexOf h " " = -1 \/ len key < indexOf h " ").
  { unfold indexOf, h. rewrite find_append_none by exact Hk2.
    simpl find. destruct (find " " rest) as [i|]; [right | left; reflexivity].
    unfold len. lia. }
  assert (Hscheme : (indexOf h " " >=? 0) && (indexOf h "=" >=? 0)
                    && (indexOf h " " <? indexOf h "=") = false).
  { rewrite Eeq. destruct Esp as [-> | Hlt]; [reflexivity|].
    replace (indexOf h " " <? len key) with false
      by (symmetry; apply Z.ltb_ge; lia).
    apply andb_false_r. }
  rewrite Hscheme, Eeq.
  replace (len key <? 0) with false by (symmetry; apply Z.ltb_ge; unfold len; lia).
  assert (Eh1 : substringFrom h (len key + 1) = String DQ rest).
  { rewrite substringFrom_drop.
    - unfold len. replace (Z.to_nat (Z.of_nat (String.length key) + 1))
        with (String.length (key ++ "=")) by (rewrite length_append; simpl; lia).
      unfold h.
      replace (key ++ String "=" (String DQ rest))
        with ((key ++ "=") ++ String DQ rest)
        by (rewrite append_assoc; reflexivity).
      apply drop_append.
    - unfold len, h. rewrite length_append. simpl. lia. }
  rewrite Eh1. cbn [startsWith]. rewrite Ascii.eqb_refl.
  rewrite regexMatch_unterminated by exact Hrest. reflexivity.
Qed.

(** C10. Whenever the parser arrives at an attribute [key] whose
    value opens with a double quote while no double quote follows in
    the [rest] of the header, [parseWwwAuthenticateHeader] throws the
    [TypeError] of reading [matches.length] on the [null] result of
    the match; it does not throw the parse error that carries the
    original header. *)
Theorem unterminated_quote_TypeError (h : string) (info : AuthInfo)
    (key rest : string) :
  reaches h (∅, h) (info, key ++ String "=" (String DQ rest)) ->
  find "=" key = None -> find " " key = None -> find DQ rest = None ->
  parseWwwAuthenticateHeader h = Throw TypeError /\
  parseWwwAuthenticateHeader h <> Throw (couldNotParse h).
Proof.
  intros Hreach Hk1 Hk2 Hrest.
  assert (E : parseWwwAuthenticateHeader h = Throw TypeError).
  { pose proof (parseWwwAuthenticateHeader_loop h (S (String.length h))) as Hloop.
    rewrite (parseLoop_reaches h _ _ _ _ Hreach (S (String.length h))
               (S (String.length (key ++ String "=" (String DQ rest)))))
      in Hloop by (simpl; lia).
    cbn [fst snd parseLoop] in Hloop.
    rewrite nonempty_len in Hloop
      by (destruct key; discriminate).
    rewrite parseStep_unterminated in Hloop by assumption.
    specialize (Hloop ltac:(lia)). congruence. }
  split; [exact E|]. rewrite E. discriminate.
Qed.

(** The header made of [Digest realm=], a double quote and [abc]. *)
Lemma unterminated_quote_TypeError_witness :
  parseWwwAuthenticateHeader ("Digest realm=" ++ String DQ "abc") = Throw TypeError /\
  parseWwwAuthenticateHeader ("Digest realm=" ++ String DQ "abc")
  <> Throw (couldNotParse ("Digest realm=" ++ String DQ "abc")).
Proof.
  apply (unterminated_quote_TypeError _ (<["authType" := "digest"]> ∅) "realm" "abc").
  - eapply reaches_turn; [discriminate | vm_compute; reflexivity | apply reaches_here].
  - reflexivity.
  - reflexivity.
  - reflexivity.
Defined.

(** ** The digest computation *)

Lemma length_leBytes (n : nat) (x : Z) : List.length (MD5.leBytes n x) = n.
Proof. revert x. induction n as [|n IH]; intros x; simpl; auto. Qed.

Lemma length_hexBytes (l : list Z) :
  String.length (MD5.hexBytes l) = (2 * List.length l)%nat.
Proof.
  induction l as [|b l IH]; [reflexivity|].
  simpl MD5.hexBytes. unfold MD5.hexByte. rewrite !append_cons, append_nil_l.
  simpl. rewrite IH. lia.
Qed.

(** An MD5 digest in hexadecimal has 32 characters. *)
Lemma length_md5 (str : string) : String.length (MD5.md5 str) = 32%nat.
Proof.
  unfold MD5.md5, MD5.digest.
  destruct (MD5.blocks _ _ _) as [a b c d].
  rewrite length_hexBytes, !length_app, !length_leBytes. reflexivity.
Qed.




Section DigestFacts.

Variable md5 : string -> string.

Lemma digestHA1_md5 (info : AuthInfo) (u p cn : option string) :
  info !! "algorithm" = None \/ info !! "algorithm" = Some "MD5" ->
  digestHA1 md5 info u p cn
  = Some (md5 (render u ++ ":" ++ render (info !! "realm") ++ ":" ++ render p)).
Proof. intros [H | H]; unfold digestHA1; rewrite H; reflexivity. Qed.

Lemma digestHA1_md5_sess (info : AuthInfo) (u p cn : option string) :
  info !! "algorithm" = Some "MD5-sess" ->
  digestHA1 md5 info u p cn
  = Some (md5 (render u ++ ":" ++ render (info !! "realm") ++ ":" ++ render p)
          ++ ":" ++ render (info !! "nonce") ++ ":" ++ render cn).
Proof. intros H. unfold digestHA1. rewrite H. reflexivity. Qed.


End DigestFacts.

(** C1. With real MD5 and a challenge whose algorithm is MD5-sess, the
    value [ha1] that [createDigestResponse] uses is the text
    MD5(username:realm:password):nonce:cnonce itself; the outer MD5 of
    the claim is not applied, so [ha1] differs from the claimed
    HA1. *)
Theorem md5_sess_ha1_not_hashed (info : AuthInfo) (u p cn : option string) :
  info !! "algorithm" = Some "MD5-sess" ->
  let a1 := render u ++ ":" ++ render (info !! "realm") ++ ":" ++ render p in
  let sess :=
    MD5.md5 a1 ++ ":" ++ render (info !! "nonce") ++ ":" ++ render cn in
  digestHA1 MD5.md5 info u p cn = Some sess /\
  digestHA1 MD5.md5 info u p cn <> Some (MD5.md5 sess).
Proof.
  intros H a1 sess.
  rewrite digestHA1_md5_sess by exact H. fold a1. fold sess.
  split; [reflexivity|].
  intros [= E]. apply (f_equal String.length) in E.
  rewrite length_md5 in E. unfold sess in E.
  rewrite !length_append, length_md5 in E. simpl in E. lia.
Qed.

(** The challenge of RFC 2617 with [algorithm=MD5-sess]. *)
Lemma md5_sess_ha1_not_hashed_witness :
  let info := <["algorithm" := "MD5-sess"]> (<["qop" := "auth"]> rfc2617) in
  let sess :=
    MD5.md5 "Mufasa:testrealm@host.com:Circle Of Life"
    ++ ":dcd98b7102dd2f0e8b11d0f600bfb0c093:0a4f113b" in
  digestHA1 MD5.md5 info (Some "Mufasa") (Some "Circle Of Life") (Some "0a4f113b")
  = Some sess /\
  digestHA1 MD5.md5 info (Some "Mufasa") (Some "Circle Of Life") (Some "0a4f113b")
  <> Some (MD5.md5 sess).
Proof.
  intros info sess.
  exact (md5_sess_ha1_not_hashed info (Some "Mufasa") (Some "Circle Of Life")
           (Some "0a4f113b") eq_refl).
Defined.

(** The same divergence seen from outside: the response sent for the
    MD5-sess challenge is not the response RFC 2617 prescribes, which
    hashes A1 before use. *)
Example md5_sess_response_differs :
  let info := <["algorithm" := "MD5-sess"]> (<["qop" := "auth"]> rfc2617) in
  let a1 :=
    MD5.md5 "Mufasa:testrealm@host.com:Circle Of Life"
    ++ ":dcd98b7102dd2f0e8b11d0f600bfb0c093:0a4f113b" in
  let tail :=
    ":dcd98b7102dd2f0e8b11d0f600bfb0c093:00000001:0a4f113b:auth:"
    ++ MD5.md5 "GET:/dir/index.html" in
  createDigestResponse MD5.md5 info (Some "Mufasa") (Some "Circle Of Life")
    "GET" "/dir/index.html" (Some "0a4f113b") 1 (Some "auth") None
  = Return (MD5.md5 (a1 ++ tail)) /\
  MD5.md5 (a1 ++ tail) <> MD5.md5 (MD5.md5 a1 ++ tail).
Proof. vm_compute. split; [reflexivity | discriminate]. Qed.






(** C8. The Basic header is the word Basic, a space, and the Base64
    text of username, a colon and password, with nothing escaped; for
    Aladdin and open sesame it is the header of RFC 2617. *)
Theorem basic_header :
  (forall (base64 : string -> string) (u p : string),
      createBasicAuthenticationString base64 (Some u) (Some p)
      = "Basic " ++ base64 (u ++ ":" ++ p))
  /\ createBasicAuthenticationString Base64.base64 (Some "Aladdin")
       (Some "open sesame")
     = "Basic QWxhZGRpbjpvcGVuIHNlc2FtZQ==".
Proof. split; [reflexivity | vm_compute; reflexivity]. Qed.

(** ** What a digest challenge is checked for *)






(** ** The session *)

(** [setWwwAuthenticate], run: the counter and the client nonce are
    assigned first; a failure of the parser or of the selection leaves
    the call there. *)
Lemma setWwwAuthenticate_run (hv : HeaderValues) (st : HttpAuthenticator * Entropy) :
  setWwwAuthenticate hv st =
  match parseAll (valuesOf hv) [] with
  | Throw e => (Throw e, afterReset st)
  | Return cs =>
      match selectChallenge cs with
      | Throw e => (Throw e, afterReset st)
      | Return chosen =>
          (Return tt, (set_authInfo chosen (fst (afterReset st)),
                       snd (afterReset st)))
      end
  end.
Proof.
  unfold setWwwAuthenticate, afterReset, bind, setThis, randHex, lift.
  cbn [fst snd].
  destruct (createRandHexStringSync 16 (snd st)) as [cnonce e'].
  cbn [fst snd].
  replace (match hv with
           | One value => parseAll [value] []
           | Many values => parseAll values []
           end) with (parseAll (valuesOf hv) []) by (destruct hv; reflexivity).
  destruct (parseAll (valuesOf hv) []) as [cs|e]; [|reflexivity].
  destruct (selectChallenge cs); reflexivity.
Qed.

Lemma afterReset_fields (st : HttpAuthenticator * Entropy) :
  nonceCount (fst (afterReset st)) = 1 /\
  clientNonce (fst (afterReset st)) = fst (createRandHexStringSync 16 (snd st)) /\
  authInfo (fst (afterReset st)) = authInfo (fst st) /\
  username (fst (afterReset st)) = username (fst st) /\
  password (fst (afterReset st)) = password (fst st).
Proof.
  unfold afterReset.
  destruct (createRandHexStringSync 16 (snd st)) as [cnonce e'].
  repeat split.
Qed.

Lemma setWwwAuthenticate_resets (hv : HeaderValues) (st : HttpAuthenticator * Entropy) :
  nonceCount (fst (snd (setWwwAuthenticate hv st))) = 1 /\
  clientNonce (fst (snd (setWwwAuthenticate hv st)))
  = fst (createRandHexStringSync 16 (snd st)).
Proof.
  rewrite setWwwAuthenticate_run.
  destruct (afterReset_fields st) as (Hn & Hc & _).
  destruct (parseAll (valuesOf hv) []) as [cs|e]; [|split; assumption].
  destruct (selectChallenge cs); split; assumption.
Qed.


(** *** The object [authInfos] *)

Lemma getProp_setProp (cs : Challenges) (k k' : string) (v : AuthInfo) :
  getProp (setProp cs k v) k' =
  if String.eqb k k' then Some v else getProp cs k'.
Proof.
  induction cs as [|[k0 v0] cs IH]; simpl.
  - reflexivity.
  - destruct (String.eqb_spec k0 k) as [-> | Hne]; simpl.
    + destruct (String.eqb k k'); reflexivity.
    + rewrite IH. destruct (String.eqb_spec k0 k') as [-> | Hne'];
        [|reflexivity].
      destruct (String.eqb_spec k k'); [congruence | reflexivity].
Qed.










(** C9. A call of [setWwwAuthenticate] on a session that has a
    challenge, with header values that parse but offer neither digest
    nor basic, throws the error of the unsupported schemes; by then
    the counter is back to 1 and the client nonce is a fresh one, while
    the challenge installed before is still there: the call that
    failed has changed the session. *)
Theorem failed_setWwwAuthenticate_mutates (hv : HeaderValues)
    (st : HttpAuthenticator * Entropy) (previous : AuthInfo) (cs : Challenges) :
  authInfo (fst st) = Some previous ->
  parseAll (valuesOf hv) [] = Return cs ->
  getProp cs "digest" = None -> getProp cs "basic" = None ->
  let r := setWwwAuthenticate hv st in
  fst r = Throw (noSupportedAuthorizationTypes cs)
  /\ nonceCount (fst (snd r)) = 1
  /\ clientNonce (fst (snd r)) = fst (createRandHexStringSync 16 (snd st))
  /\ authInfo (fst (snd r)) = Some previous
  /\ (nonceCount (fst st) <> 1 -> fst (snd r) <> fst st).
Proof.
  intros Hprev Hparse Hd Hb r. subst r.
  rewrite setWwwAuthenticate_run, Hparse.
  unfold selectChallenge. rewrite Hd, Hb. cbn [fst snd].
  destruct (afterReset_fields st) as (Hn & Hc & Ha & _).
  split; [reflexivity|]. split; [exact Hn|]. split; [exact Hc|].
  split; [congruence|].
  intros Hne E. rewrite E in Hn. contradiction.
Qed.

(** A session that has sent two digest headers, then receives
    [NTLM realm=x]. *)
Lemma failed_setWwwAuthenticate_mutates_witness :
  let st := (mkHttpAuthenticator 3 (Some (<["authType" := "digest"]> rfc2617))
               (Some "Mufasa") (Some "Circle Of Life") "0A4F113B",
             fun _ : nat => 165) in
  let r := setWwwAuthenticate (One "NTLM realm=x") st in
  fst r = Throw (noSupportedAuthorizationTypes
                   [("ntlm", <["realm" := "x"]> (<["authType" := "ntlm"]> ∅))])
  /\ nonceCount (fst (snd r)) = 1
  /\ clientNonce (fst (snd r)) = "A5A5A5A5A5A5A5A5"
  /\ authInfo (fst (snd r)) = Some (<["authType" := "digest"]> rfc2617)
  /\ (3 <> 1 -> fst (snd r) <> fst st).
Proof.
  intros st r.
  apply (failed_setWwwAuthenticate_mutates (One "NTLM realm=x") st
           (<["authType" := "digest"]> rfc2617)
           [("ntlm", <["realm" := "x"]> (<["authType" := "ntlm"]> ∅))]).
  - reflexivity.
  - vm_compute. reflexivity.
  - reflexivity.
  - reflexivity.
Defined.




(** * Further properties of the code *)

(** ** [createRandHexStringSync] *)

Lemma hexCharAt_upper (d : Z) :
  0 <= d < 16 ->
  exists a, hexCharAt d = String a "" /\ isUpperHex a = true.
Proof.
  intros H. pose proof (small_cases d H) as C.
  repeat (destruct C as [C | C];
          [subst d; eexists; split; vm_compute; reflexivity |]).
  subst d; eexists; split; vm_compute; reflexivity.
Qed.

Lemma allChars_append (p : ascii -> bool) (s t : string) :
  allChars p (s ++ t) = allChars p s && allChars p t.
Proof.
  induction s as [|a s IH]; [reflexivity|].
  rewrite append_cons. simpl. rewrite IH. apply andb_assoc.
Qed.

Lemma land_15_range (x : Z) : 0 <= Z.land x 15 < 16.
Proof.
  change 15 with (Z.ones 4). rewrite Z.land_ones by lia.
  apply Z.mod_pos_bound. lia.
Qed.

Lemma shiftr_4_range (x : Z) : 0 <= x < 256 -> 0 <= Z.shiftr x 4 < 16.
Proof.
  intros H. rewrite Z.shiftr_div_pow2 by lia. change (2 ^ 4) with 16.
  split; [apply Z.div_pos; lia | apply Z.div_lt_upper_bound; lia].
Qed.

Lemma hexPairs_shape (buf : list Z) :
  Forall (fun b => 0 <= b < 256) buf ->
  String.length (hexPairs buf) = (2 * List.length buf)%nat /\
  allChars isUpperHex (hexPairs buf) = true.
Proof.
  induction 1 as [|b buf Hb _ [IHl IHu]]; [split; reflexivity|].
  destruct (hexCharAt_upper _ (shiftr_4_range b Hb)) as (a1 & E1 & U1).
  destruct (hexCharAt_upper _ (land_15_range b)) as (a2 & E2 & U2).
  cbn [hexPairs]. rewrite E1, E2, !append_cons, !append_nil_l.
  split; simpl.
  - rewrite IHl. lia.
  - rewrite U1, U2, IHu. reflexivity.
Qed.

Lemma randomBytes_bytes (n : nat) (e : Entropy) :
  List.length (fst (randomBytes n e)) = n /\
  Forall (fun b => 0 <= b < 256) (fst (randomBytes n e)).
Proof.
  unfold randomBytes. cbn [fst]. split.
  - rewrite length_map, length_seq. reflexivity.
  - apply List.Forall_forall. intros b Hb. apply in_map_iff in Hb as (i & <- & _).
    apply Z.mod_pos_bound. lia.
Qed.

Lemma createRandHexStringSync_text (hexDigits : Z) (e : Entropy) :
  0 <= hexDigits ->
  String.length (fst (createRandHexStringSync hexDigits e)) = Z.to_nat hexDigits /\
  allChars isUpperHex (fst (createRandHexStringSync hexDigits e)) = true.
Proof.
  intros Hh. unfold createRandHexStringSync.
  assert (Eodd : Z.land hexDigits 1 = hexDigits mod 2).
  { change 1 with (Z.ones 1). rewrite Z.land_ones by lia. reflexivity. }
  assert (Elen : Z.shiftr hexDigits 1 = hexDigits / 2).
  { rewrite Z.shiftr_div_pow2 by lia. reflexivity. }
  rewrite Eodd, Elen.
  pose proof (Z.mod_pos_bound hexDigits 2 ltac:(lia)) as Hodd.
  pose proof (Z.div_mod hexDigits 2 ltac:(lia)) as Hdiv.
  assert (0 <= hexDigits / 2) by (apply Z.div_pos; lia).
  destruct (randomBytes_bytes (Z.to_nat (hexDigits / 2 + hexDigits mod 2)) e)
    as [Hlen Hbytes].
  destruct (randomBytes _ e) as [buf e']. cbn [fst] in *.
  destruct (hexPairs_shape (firstn (Z.to_nat (hexDigits / 2)) buf))
    as [Hl Hu]; [apply Forall_take, Hbytes|].
  rewrite length_firstn, Hlen in Hl.
  destruct (Z.eqb_spec (hexDigits mod 2) 0) as [E0 | E1].
  - split; [rewrite Hl; lia | exact Hu].
  - destruct (hexCharAt_upper _ (land_15_range
                (nth (Z.to_nat (hexDigits / 2)) buf 0))) as (a & Ea & Ua).
    rewrite Ea. split.
    + rewrite length_append, Hl. simpl. lia.
    + rewrite allChars_append, Hu. simpl. rewrite Ua. reflexivity.
Qed.




(** ** [toPaddedHexString] beyond the 32-bit range *)





(** ** The digest computation: body, algorithm *)

Lemma digestHA2_body (md5 : string -> string) (method uri : string)
    (q : option string) (b1 b2 : string) :
  q <> Some "auth-int" ->
  digestHA2 md5 method uri q b1 = digestHA2 md5 method uri q b2.
Proof.
  intros Hq. unfold digestHA2. destruct q as [x|]; [|reflexivity].
  cbn [notSet isSet negb orb strictEq].
  destruct (String.eqb x "auth"); [reflexivity|].
  destruct (String.eqb_spec x "auth-int"); [congruence | reflexivity].
Qed.

(** X3. The request body enters the digest header only when the
    resolved qop is auth-int: for a challenge whose qop does not
    resolve to auth-int, any two bodies give the same result.  A body
    that is not given counts as the empty body. *)
Theorem body_only_for_auth_int (md5 : string -> string) (info : AuthInfo)
    (u p : option string) (method uri : string) (cn : option string) (n : Z) :
  (forall b1 b2,
      resolveQop info <> Return (Some "auth-int") ->
      createDigestAuthenticationString md5 info u p method uri cn n b1
      = createDigestAuthenticationString md5 info u p method uri cn n b2)
  /\ createDigestAuthenticationString md5 info u p method uri cn n None
     = createDigestAuthenticationString md5 info u p method uri cn n (Some "").
Proof.
  split; [|reflexivity].
  intros b1 b2 Hq. unfold createDigestAuthenticationString.
  destruct (resolveQop info) as [q|e]; [|reflexivity].
  assert (E : createDigestResponse md5 info u p method uri cn n q b1
              = createDigestResponse md5 info u p method uri cn n q b2).
  { unfold createDigestResponse.
    rewrite (digestHA2_body md5 method uri q
               (match b1 with Some b => b | None => "" end)
               (match b2 with Some b => b | None => "" end))
      by congruence.
    reflexivity. }
  rewrite E. reflexivity.
Qed.

Lemma body_only_for_auth_int_witness :
  createDigestAuthenticationString MD5.md5 (<["qop" := "auth"]> rfc2617)
    (Some "Mufasa") (Some "Circle Of Life") "POST" "/x" (Some "0a4f113b") 1
    (Some "first body")
  = createDigestAuthenticationString MD5.md5 (<["qop" := "auth"]> rfc2617)
      (Some "Mufasa") (Some "Circle Of Life") "POST" "/x" (Some "0a4f113b") 1
      (Some "second body").
Proof.
  apply (proj1 (body_only_for_auth_int MD5.md5 (<["qop" := "auth"]> rfc2617)
                  (Some "Mufasa") (Some "Circle Of Life") "POST" "/x"
                  (Some "0a4f113b") 1)).
  vm_compute. discriminate.
Defined.

(** X4. An algorithm other than [MD5] and [MD5-sess] (the comparison
    is exact, so [md5] in lower case is one) is not rejected: [ha1]
    stays undefined, the text [undefined] is hashed in its place, and
    the header is the same whatever the password is. *)
Theorem unknown_algorithm_ignores_password (md5 : string -> string)
    (info : AuthInfo) (algorithm : string) (u : option string)
    (method uri : string) (cn : option string) (n : Z) (body : option string) :
  info !! "algorithm" = Some algorithm ->
  algorithm <> "MD5" -> algorithm <> "MD5-sess" ->
  (forall p, digestHA1 md5 info u p cn = None)
  /\ (forall p1 p2,
         createDigestAuthenticationString md5 info u p1 method uri cn n body
         = createDigestAuthenticationString md5 info u p2 method uri cn n body).
Proof.
  intros Halg H1 H2.
  assert (Hha1 : forall p, digestHA1 md5 info u p cn = None).
  { intros p. unfold digestHA1. rewrite Halg.
    cbn [notSet isSet negb orb strictEq].
    destruct (String.eqb_spec algorithm "MD5"); [congruence|].
    destruct (String.eqb_spec algorithm "MD5-sess"); [congruence | reflexivity]. }
  split; [exact Hha1|].
  intros p1 p2. unfold createDigestAuthenticationString, createDigestResponse.
  rewrite (Hha1 p1), (Hha1 p2). reflexivity.
Qed.

Lemma unknown_algorithm_ignores_password_witness :
  createDigestAuthenticationString MD5.md5 (<["algorithm" := "md5"]> rfc2617)
    (Some "Mufasa") (Some "Circle Of Life") "GET" "/" (Some "0a4f113b") 1 None
  = createDigestAuthenticationString MD5.md5 (<["algorithm" := "md5"]> rfc2617)
      (Some "Mufasa") (Some "wrong password") "GET" "/" (Some "0a4f113b") 1 None.
Proof.
  apply (unknown_algorithm_ignores_password MD5.md5
           (<["algorithm" := "md5"]> rfc2617) "md5" (Some "Mufasa")
           "GET" "/" (Some "0a4f113b") 1 None);
    [vm_compute; reflexivity | discriminate | discriminate].
Defined.

(** ** The session: what is installed, and what a header call does *)



Lemma getAuthorizationHeader_basic (md5 base64 : string -> string)
    (method uri : string) (body : option string)
    (st : HttpAuthenticator * Entropy) (info : AuthInfo) :
  authInfo (fst st) = Some info ->
  info !! "authType" = Some "basic" ->
  getAuthorizationHeader md5 base64 method uri body st =
  (Return (createBasicAuthenticationString base64 (username (fst st))
             (password (fst st))), st).
Proof.
  intros Hinfo Htype.
  unfold getAuthorizationHeader, bind, getThis, ret.
  cbn [fst snd]. rewrite Hinfo, Htype. reflexivity.
Qed.

Lemma getAuthorizationHeader_unset (md5 base64 : string -> string)
    (method uri : string) (body : option string)
    (st : HttpAuthenticator * Entropy) :
  authInfo (fst st) = None ->
  getAuthorizationHeader md5 base64 method uri body st
  = (Throw preconditionFailed, st).
Proof.
  intros Hinfo. unfold getAuthorizationHeader, bind, getThis, throw.
  cbn [fst snd]. rewrite Hinfo. reflexivity.
Qed.

(** The session after a header call: as before, or with the counter
    one higher. *)
Lemma getAuthorizationHeader_state (md5 base64 : string -> string)
    (method uri : string) (body : option string)
    (st : HttpAuthenticator * Entropy) :
  snd (getAuthorizationHeader md5 base64 method uri body st) = st
  \/ snd (getAuthorizationHeader md5 base64 method uri body st)
     = (set_nonceCount (nonceCount (fst st) + 1) (fst st), snd st).
Proof.
  unfold getAuthorizationHeader, bind, getThis, setThis, lift, ret, throw.
  cbn [fst snd].
  destruct (authInfo (fst st)) as [info|]; [|left; reflexivity].
  destruct (strictEq (info !! "authType") "digest"); [right; reflexivity|].
  destruct (strictEq (info !! "authType") "basic"); left; reflexivity.
Qed.





(** ** Invariants of the session *)

(** X7. In every state that a session reaches from its constructor,
    by any series of calls, also calls that throw, the counter is at
    least 1 and the client nonce is a text of sixteen uppercase
    hexadecimal digits. *)
Theorem session_invariant (md5 base64 : string -> string) (e : Entropy)
    (calls : list Call) :
  let st := runCalls md5 base64 calls (construct e) in
  1 <= nonceCount (fst st)
  /\ String.length (clientNonce (fst st)) = 16%nat
  /\ allChars isUpperHex (clientNonce (fst st)) = true.
Proof.
  set (Inv := fun st : HttpAuthenticator * Entropy =>
                1 <= nonceCount (fst st)
                /\ String.length (clientNonce (fst st)) = 16%nat
                /\ allChars isUpperHex (clientNonce (fst st)) = true).
  assert (Hstep : forall c st, Inv st -> Inv (runCall md5 base64 c st)).
  { intros c st (Hn & Hl & Hu). destruct c; cbn [runCall].
    - repeat split; assumption.
    - repeat split; assumption.
    - repeat split; assumption.
    - repeat split; assumption.
    - destruct (getAuthorizationHeader_state md5 base64 method uri body st)
        as [-> | ->]; [repeat split; assumption|].
      repeat split; cbn [fst set_nonceCount nonceCount clientNonce];
        [lia | assumption | assumption].
    - unfold previousFailedRequestWasStale, bind, getThis. cbn [fst snd].
      destruct (authInfo (fst st)); repeat split; assumption.
    - destruct (setWwwAuthenticate_resets wwwAuthenticate st) as [Hn' Hc'].
      destruct (createRandHexStringSync_text 16 (snd st) ltac:(lia))
        as [Hl' Hu'].
      unfold Inv. rewrite Hn', Hc'. repeat split; [lia | exact Hl' | exact Hu']. }
  assert (Hall : forall calls st, Inv st -> Inv (runCalls md5 base64 calls st)).
  { induction calls0 as [|c calls0 IH]; intros st Hst; [exact Hst|].
    apply IH, Hstep, Hst. }
  apply Hall. unfold Inv, construct.
  destruct (createRandHexStringSync_text 16 e ltac:(lia)) as [Hl Hu].
  destruct (createRandHexStringSync 16 e) as [str e'].
  cbn [fst nonceCount clientNonce] in *. repeat split; [lia | exact Hl | exact Hu].
Qed.

(** X8. On a basic challenge [getAuthorizationHeader] returns the
    Basic header of the stored credentials whatever the method, the uri
    and the body are, and leaves the session as it is.  It does not ask
    for credentials: with none set, the header encodes the text
    [undefined:undefined]. *)
Theorem basic_header_of_session (md5 base64 : string -> string)
    (st : HttpAuthenticator * Entropy) (info : AuthInfo)
    (method uri : string) (body : option string) :
  authInfo (fst st) = Some info ->
  info !! "authType" = Some "basic" ->
  getAuthorizationHeader md5 base64 method uri body st
  = (Return ("Basic " ++ base64 (render (username (fst st)) ++ ":"
                                  ++ render (password (fst st)))), st)
  /\ (username (fst st) = None -> password (fst st) = None ->
      fst (getAuthorizationHeader md5 base64 method uri body st)
      = Return ("Basic " ++ base64 "undefined:undefined")).
Proof.
  intros Hinfo Htype.
  rewrite (getAuthorizationHeader_basic md5 base64 method uri body st info
             Hinfo Htype).
  split; [reflexivity|]. intros -> ->. reflexivity.
Qed.

Lemma basic_header_of_session_witness :
  let st := snd (setWwwAuthenticate (One ("Basic realm=" ++ quote "x"))
                   (construct (fun _ => 0))) in
  fst (getAuthorizationHeader MD5.md5 Base64.base64 "GET" "/" None st)
  = Return ("Basic " ++ Base64.base64 "undefined:undefined").
Proof.
  intros st.
  set (info := <["realm" := "x"]> (<["authType" := "basic"]> (∅ : AuthInfo))).
  destruct (basic_header_of_session MD5.md5 Base64.base64 st info
              "GET" "/" None) as [_ H];
    [vm_compute; reflexivity | vm_compute; reflexivity |].
  apply H; reflexivity.
Defined.




(** ** Several header values *)

Lemma parseAll_app (vs1 vs2 : list string) :
  forall cs,
    parseAll (vs1 ++ vs2) cs =
    match parseAll vs1 cs with
    | Return cs' => parseAll vs2 cs'
    | Throw e => Throw e
    end.
Proof.
  induction vs1 as [|v vs1 IH]; intros cs; [reflexivity|].
  cbn [parseAll app].
  destruct (parseWwwAuthenticateHeader v); [apply IH | reflexivity].
Qed.

Lemma parseAll_other_scheme (vs : list string) (k : string) :
  (forall v info, In v vs -> parseWwwAuthenticateHeader v = Return info ->
                  render (info !! "authType") <> k) ->
  forall cs cs', parseAll vs cs = Return cs' -> getProp cs' k = getProp cs k.
Proof.
  induction vs as [|v vs IH]; intros Hother cs cs'; cbn [parseAll].
  - intros [= <-]. reflexivity.
  - destruct (parseWwwAuthenticateHeader v) as [info|e] eqn:Hv; [|discriminate].
    intros Hrest. rewrite (IH ltac:(intros; eapply Hother; [right|]; eassumption)
                             _ _ Hrest).
    rewrite getProp_setProp.
    destruct (String.eqb_spec (render (info !! "authType")) k) as [E|]; [|reflexivity].
    exfalso. eapply Hother; [left; reflexivity | exact Hv | exact E].
Qed.

(** X10. Of several header values with the same scheme the last one
    counts: the challenge filed under a scheme name is the one parsed
    from the last value that carries that name. *)
Theorem last_value_of_scheme_wins (vs1 vs2 : list string) (v : string)
    (info : AuthInfo) (cs : Challenges) :
  parseAll (vs1 ++ v :: vs2) [] = Return cs ->
  parseWwwAuthenticateHeader v = Return info ->
  (forall v' info',
      In v' vs2 -> parseWwwAuthenticateHeader v' = Return info' ->
      render (info' !! "authType") <> render (info !! "authType")) ->
  getProp cs (render (info !! "authType")) = Some info.
Proof.
  intros Hall Hv Hlater. rewrite parseAll_app in Hall.
  destruct (parseAll vs1 []) as [cs1|e]; [|discriminate].
  cbn [parseAll] in Hall. rewrite Hv in Hall.
  rewrite (parseAll_other_scheme vs2 _ Hlater _ _ Hall).
  rewrite getProp_setProp, String.eqb_refl. reflexivity.
Qed.

(** Two digest challenges: the second is the one filed. *)
Lemma last_value_of_scheme_wins_witness :
  let info : AuthInfo :=
    <["nonce" := "second"]> (<["authType" := "digest"]> ∅) in
  let cs : Challenges :=
    [("digest", info);
     ("basic", <["realm" := "x"]> (<["authType" := "basic"]> ∅))] in
  parseAll (["Digest nonce=first"] ++ "Digest nonce=second" :: ["Basic realm=x"]) []
  = Return cs
  /\ getProp cs (render (info !! "authType")) = Some info.
Proof.
  intros info cs.
  assert (Hall : parseAll (["Digest nonce=first"] ++ "Digest nonce=second"
                             :: ["Basic realm=x"]) [] = Return cs)
    by (vm_compute; reflexivity).
  split; [exact Hall|].
  apply (last_value_of_scheme_wins ["Digest nonce=first"] ["Basic realm=x"]
           "Digest nonce=second" info cs Hall).
  - vm_compute. reflexivity.
  - intros v' info' [<- | []]. vm_compute. intros [= <-]. vm_compute.
    discriminate.
Defined.

(** X11. One header value that does not parse fails the whole call,
    whatever the other values offer: [setWwwAuthenticate] throws the
    error of the first such value and installs nothing, the challenge
    of before staying in place. *)
Theorem unparsable_value_fails_call (vs1 vs2 : list string) (v : string)
    (e : exn) (st : HttpAuthenticator * Entropy) :
  Forall (fun v' => exists info, parseWwwAuthenticateHeader v' = Return info) vs1 ->
  parseWwwAuthenticateHeader v = Throw e ->
  fst (setWwwAuthenticate (Many (vs1 ++ v :: vs2)) st) = Throw e
  /\ authInfo (fst (snd (setWwwAuthenticate (Many (vs1 ++ v :: vs2)) st)))
     = authInfo (fst st).
Proof.
  intros Hbefore Hv.
  assert (Hparse : forall cs, parseAll (vs1 ++ v :: vs2) cs = Throw e).
  { induction Hbefore as [|v1 vs1 [info Hv1] _ IH]; intros cs; cbn [parseAll app].
    - rewrite Hv. reflexivity.
    - rewrite Hv1. apply IH. }
  rewrite setWwwAuthenticate_run. cbn [valuesOf]. rewrite Hparse.
  destruct (afterReset_fields st) as (_ & _ & Ha & _).
  split; [reflexivity | exact Ha].
Qed.

(** A digest challenge followed by the bare word NTLM. *)
Lemma unparsable_value_fails_call_witness :
  fst (setWwwAuthenticate (Many (["Digest nonce=abc"] ++ "NTLM" :: []))
         (construct (fun _ => 0)))
  = Throw (couldNotParse "NTLM")
  /\ authInfo (fst (snd (setWwwAuthenticate
                           (Many (["Digest nonce=abc"] ++ "NTLM" :: []))
                           (construct (fun _ => 0)))))
     = authInfo (fst (construct (fun _ => 0))).
Proof.
  apply (unparsable_value_fails_call ["Digest nonce=abc"] [] "NTLM").
  - constructor; [|constructor]. eexists. vm_compute. reflexivity.
  - vm_compute. reflexivity.
Defined.

(** ** Credentials and the session without a challenge *)

Lemma runCall_credentials (md5 base64 : string -> string) (c : Call)
    (st : HttpAuthenticator * Entropy) :
  (forall u p, c <> CallSetCredentials u p) ->
  username (fst (runCall md5 base64 c st)) = username (fst st) /\
  password (fst (runCall md5 base64 c st)) = password (fst st).
Proof.
  intros Hc. destruct c; cbn [runCall].
  - exfalso. eapply Hc. reflexivity.
  - split; reflexivity.
  - split; reflexivity.
  - split; reflexivity.
  - destruct (getAuthorizationHeader_state md5 base64 method uri body st)
      as [-> | ->]; split; reflexivity.
  - unfold previousFailedRequestWasStale, bind, getThis. cbn [fst snd].
    destruct (authInfo (fst st)); split; reflexivity.
  - rewrite setWwwAuthenticate_run.
    destruct (afterReset_fields st) as (_ & _ & _ & Hu & Hp).
    destruct (parseAll _ []) as [cs|e]; [|split; assumption].
    destruct (selectChallenge cs); split; assumption.
Qed.

(** X12. Credentials are touched by [setCredentials] only: any series
    of other calls, new challenges and failed calls included, leaves
    username and password as they were; and [setCredentials] stores
    the pair and changes nothing else, neither the challenge nor the
    counter nor the client nonce. *)
Theorem credentials_frame (md5 base64 : string -> string) :
  (forall calls st,
      Forall (fun c => forall u p, c <> CallSetCredentials u p) calls ->
      username (fst (runCalls md5 base64 calls st)) = username (fst st) /\
      password (fst (runCalls md5 base64 calls st)) = password (fst st))
  /\ (forall u p st,
         setCredentials u p st
         = (Return tt,
            (mkHttpAuthenticator (nonceCount (fst st)) (authInfo (fst st))
               (Some u) (Some p) (clientNonce (fst st)), snd st))).
Proof.
  split; [|reflexivity].
  intros calls st Hcalls. revert st.
  induction Hcalls as [|c calls Hc _ IH]; intros st; [split; reflexivity|].
  change (runCalls md5 base64 (c :: calls) st)
    with (runCalls md5 base64 calls (runCall md5 base64 c st)).
  destruct (IH (runCall md5 base64 c st)) as [Hu Hp].
  destruct (runCall_credentials md5 base64 c st Hc) as [Hu' Hp'].
  split; congruence.
Qed.

(** Credentials set before a challenge that fails and one that
    succeeds. *)
Lemma credentials_frame_witness :
  let st := snd (setCredentials "Mufasa" "Circle Of Life"
                   (construct (fun _ => 0))) in
  let calls := [CallSetWwwAuthenticate (One "NTLM");
                CallSetWwwAuthenticate (One "Digest nonce=abc");
                CallGetAuthorizationHeader "GET" "/" None] in
  username (fst (runCalls MD5.md5 Base64.base64 calls st)) = username (fst st) /\
  password (fst (runCalls MD5.md5 Base64.base64 calls st)) = password (fst st).
Proof.
  intros st calls.
  apply (proj1 (credentials_frame MD5.md5 Base64.base64) calls st).
  repeat constructor; discriminate.
Defined.

(** X13. Without a challenge (a new session, or one whose calls of
    [setWwwAuthenticate] all failed) [getAuthorizationHeader] throws
    the precondition error and does not count the call,
    [previousFailedRequestWasStale] throws a [TypeError] instead of
    answering, and [isValid] answers false also when credentials are
    set. *)
Theorem session_without_challenge (md5 base64 : string -> string)
    (st : HttpAuthenticator * Entropy) (method uri : string)
    (body : option string) :
  authInfo (fst st) = None ->
  getAuthorizationHeader md5 base64 method uri body st
  = (Throw preconditionFailed, st)
  /\ previousFailedRequestWasStale st = (Throw TypeError, st)
  /\ isValid st = (Return false, st)
  /\ (forall u p, fst (isValid (snd (setCredentials u p st))) = Return false)
  /\ (forall hv, fst (setWwwAuthenticate hv st) <> Return tt ->
                 authInfo (fst (snd (setWwwAuthenticate hv st))) = None).
Proof.
  intros Hinfo. split; [apply getAuthorizationHeader_unset, Hinfo|].
  split.
  { unfold previousFailedRequestWasStale, bind, getThis, throw.
    cbn [fst snd]. rewrite Hinfo. reflexivity. }
  split.
  { unfold isValid, bind, getThis, ret. cbn [fst snd]. rewrite Hinfo.
    reflexivity. }
  split.
  { intros u p. unfold isValid, setCredentials, setThis, bind, getThis, ret.
    cbn [fst snd set_credentials authInfo]. rewrite Hinfo. reflexivity. }
  intros hv Hfail. rewrite setWwwAuthenticate_run in *.
  destruct (afterReset_fields st) as (_ & _ & Ha & _).
  destruct (parseAll _ []) as [cs|e]; [|cbn [fst snd]; congruence].
  destruct (selectChallenge cs); [|cbn [fst snd]; congruence].
  exfalso. apply Hfail. reflexivity.
Qed.

Lemma session_without_challenge_witness :
  getAuthorizationHeader MD5.md5 Base64.base64 "GET" "/" None
    (construct (fun _ => 0))
  = (Throw preconditionFailed, construct (fun _ => 0)).
Proof.
  apply (session_without_challenge MD5.md5 Base64.base64
           (construct (fun _ => 0)) "GET" "/" None).
  reflexivity.
Defined.

(** ** The parser on well-formed and on malformed headers *)

(** *** The quoted value, in closed form *)

Lemma starLoop_body_run (k : string -> option string) (t : string)
    (r : string) :
  k (String DQ t) = Some r ->
  forall v n,
    find DQ v = None -> (String.length v <= n)%nat ->
    starLoop (rmatch quotedBody) k n (v ++ String DQ t) = Some r.
Proof.
  intros Hk. induction v as [|a v IH]; intros n Hv Hn.
  - rewrite append_nil_l. destruct n as [|n]; [exact Hk|].
    cbn [starLoop]. rewrite rmatch_quotedBody_cons, Ascii.eqb_refl.
    replace (Ascii.eqb DQ BSL) with false by reflexivity. exact Hk.
  - destruct n as [|n]; [simpl in Hn; lia|].
    simpl in Hv. destruct (Ascii.eqb a DQ) eqn:Ea; [discriminate|].
    destruct (find DQ v) eqn:Ev; [discriminate|].
    rewrite append_cons. cbn [starLoop].
    rewrite rmatch_quotedBody_cons, Ea. cbn [String.length].
    replace (String.length (v ++ String DQ t)
             <? S (String.length (v ++ String DQ t)))%nat
      with true by (symmetry; apply Nat.ltb_lt; lia).
    rewrite IH by (try reflexivity; simpl in Hn; lia). reflexivity.
Qed.

Lemma starLoop_spaces :
  forall n s,
    (String.length s <= n)%nat ->
    starLoop (rmatch (Chr " ")) (fun rest => Some rest) n s = Some (dropSpaces s).
Proof.
  induction n as [|n IH]; intros s Hs.
  - destruct s; [reflexivity | simpl in Hs; lia].
  - cbn [starLoop]. destruct s as [|a s]; [reflexivity|].
    cbn [rmatch dropSpaces String.length].
    destruct (Ascii.eqb a " "); [|reflexivity].
    replace (String.length s <? S (String.length s))%nat
      with true by (symmetry; apply Nat.ltb_lt; lia).
    rewrite IH by (simpl in Hs; lia). reflexivity.
Qed.

Lemma rmatch_separator (t : string) :
  rmatch (Seq (Opt (Chr ",")) (Star (Chr " "))) t (fun rest => Some rest)
  = Some (afterSeparator t).
Proof.
  cbn [rmatch]. destruct t as [|a t].
  - reflexivity.
  - cbn [afterSeparator]. destruct (Ascii.eqb a ",").
    + rewrite starLoop_spaces by lia. reflexivity.
    + rewrite starLoop_spaces by lia. reflexivity.
Qed.

Lemma rmatch_quoted (v t : string) :
  find DQ v = None ->
  rmatch quotedValueRe (String DQ (v ++ String DQ t)) (fun rest => Some rest)
  = Some (afterSeparator t).
Proof.
  intros Hv. unfold quotedValueRe. cbn [rmatch]. rewrite Ascii.eqb_refl.
  fold quotedBody.
  apply starLoop_body_run; [|exact Hv | rewrite length_append; lia].
  rewrite Ascii.eqb_refl. apply (rmatch_separator t).
Qed.

Lemma dropSpaces_suffix (s : string) :
  exists sp, s = sp ++ dropSpaces s /\ find DQ sp = None.
Proof.
  induction s as [|a s (sp & E & Hsp)]; [exists ""; split; reflexivity|].
  cbn [dropSpaces]. destruct (Ascii.eqb_spec a " ") as [-> | Hne].
  - exists (String " " sp). split; [rewrite append_cons, <- E; reflexivity|].
    simpl. rewrite Hsp. reflexivity.
  - exists "". split; reflexivity.
Qed.

Lemma afterSeparator_suffix (t : string) :
  exists sep, t = sep ++ afterSeparator t /\ find DQ sep = None.
Proof.
  destruct t as [|a t]; [exists ""; split; reflexivity|].
  cbn [afterSeparator]. destruct (Ascii.eqb_spec a ",") as [-> | Hne].
  - destruct (dropSpaces_suffix t) as (sp & E & Hsp).
    exists (String "," sp). split; [rewrite append_cons, <- E; reflexivity|].
    simpl. rewrite Hsp. reflexivity.
  - apply dropSpaces_suffix.
Qed.

Lemma take_length_append (s t : string) : take (String.length s) (s ++ t) = s.
Proof.
  induction s as [|a s IH]; [destruct t; reflexivity|].
  rewrite append_cons. simpl. rewrite IH. reflexivity.
Qed.

(** The text that [match] returns for a quoted value: the value
    between its quotes and the separator after it. *)
Lemma regexMatch_quoted (v t : string) :
  find DQ v = None ->
  exists sep,
    t = sep ++ afterSeparator t /\ find DQ sep = None /\
    regexMatch quotedValueRe (String DQ (v ++ String DQ t))
    = Some (String DQ (v ++ String DQ sep)).
Proof.
  intros Hv. destruct (afterSeparator_suffix t) as (sep & E & Hsep).
  exists sep. split; [exact E|]. split; [exact Hsep|].
  assert (M : matchAt quotedValueRe (String DQ (v ++ String DQ t))
              = Some (String DQ (v ++ String DQ sep))).
  { assert (W : String DQ (v ++ String DQ t)
                 = String DQ (v ++ String DQ sep) ++ afterSeparator t).
    { rewrite append_cons, append_assoc, append_cons, <- E. reflexivity. }
    unfold matchAt. rewrite rmatch_quoted by exact Hv. f_equal.
    rewrite W, length_append, Nat.add_sub. apply take_length_append. }
  destruct v; cbn [regexMatch]; rewrite M; reflexivity.
Qed.

Lemma findLast_none (c : ascii) (s : string) :
  find c s = None -> findLast c s = None.
Proof.
  induction s as [|a s IH]; [reflexivity|]. simpl.
  destruct (Ascii.eqb a c); [discriminate|].
  destruct (find c s); [discriminate|]. intros _. rewrite IH; reflexivity.
Qed.

Lemma findLast_append_last (c : ascii) (s t : string) :
  find c t = None -> findLast c (s ++ String c t) = Some (String.length s).
Proof.
  intros Ht. induction s as [|a s IH].
  - rewrite append_nil_l. simpl. rewrite findLast_none by exact Ht.
    rewrite Ascii.eqb_refl. reflexivity.
  - rewrite append_cons. simpl. rewrite IH. reflexivity.
Qed.

Lemma substring_prefix (s t : string) :
  substring (s ++ t) 0 (len s) = s.
Proof.
  unfold substring, clamp, len. rewrite length_append.
  replace (Z.to_nat (Z.max 0 (Z.min 0 (Z.of_nat (String.length s + String.length t)))))
    with O by lia.
  replace (Z.to_nat (Z.max 0 (Z.min (Z.of_nat (String.length s))
                                    (Z.of_nat (String.length s + String.length t)))))
    with (String.length s) by lia.
  rewrite Nat.max_0_l, Nat.min_0_l, Nat.sub_0_r. apply take_length_append.
Qed.

Lemma substringFrom_suffix (s t : string) :
  substringFrom (s ++ t) (len s) = t.
Proof.
  rewrite substringFrom_drop.
  - unfold len. rewrite Nat2Z.id. apply drop_append.
  - unfold len. rewrite length_append. lia.
Qed.



Lemma plain_no_quote (v : string) :
  allChars plainChar v = true -> find DQ v = None.
Proof.
  induction v as [|a v IH]; [reflexivity|]. simpl. intros H.
  apply andb_true_iff in H as [Ha Hv]. unfold plainChar in Ha.
  apply andb_true_iff in Ha as [Ha _]. apply andb_true_iff in Ha as [Hq _].
  apply negb_true_iff in Hq. rewrite Hq, (IH Hv). reflexivity.
Qed.

(** *** One turn of the loop on an attribute *)

Lemma key_indices (k tail : string) :
  find "=" k = None -> find " " k = None ->
  indexOf (k ++ String "=" tail) "=" = len k
  /\ (indexOf (k ++ String "=" tail) " " >=? 0)
     && (indexOf (k ++ String "=" tail) "=" >=? 0)
     && (indexOf (k ++ String "=" tail) " " <? indexOf (k ++ String "=" tail) "=")
     = false
  /\ substring (k ++ String "=" tail) 0 (len k) = k
  /\ substringFrom (k ++ String "=" tail) (len k + 1) = tail.
Proof.
  intros Hk1 Hk2.
  assert (Eeq : indexOf (k ++ String "=" tail) "=" = len k).
  { unfold indexOf. rewrite find_append_first by exact Hk1. reflexivity. }
  split; [exact Eeq|]. split; [|split].
  - rewrite Eeq. unfold indexOf. rewrite find_append_none by exact Hk2.
    simpl find. destruct (find " " tail) as [i|]; [|reflexivity].
    replace (Z.of_nat (String.length k + S i) <? len k) with false
      by (symmetry; apply Z.ltb_ge; unfold len; lia).
    apply andb_false_r.
  - apply substring_prefix.
  - replace (k ++ String "=" tail) with ((k ++ "=") ++ tail)
      by (rewrite append_assoc; reflexivity).
    replace (len k + 1) with (len (k ++ "="))
      by (unfold len; rewrite length_append; simpl; lia).
    apply substringFrom_suffix.
Qed.

(** A quoted value: it ends at the first double quote after the
    opening one, whatever is before that quote; the text between the
    two goes through [JSON.parse]. *)
Lemma parseStep_quoted (orig : string) (info : AuthInfo) (k v t : string) :
  find "=" k = None -> find " " k = None -> find DQ v = None ->
  parseStep orig info (k ++ String "=" (String DQ (v ++ String DQ t)))
  = match JSON_parse (quote v) with
    | Return x => Next (<[k := x]> info) (afterSeparator t)
    | Throw e => Stop e
    end.
Proof.
  intros Hk1 Hk2 Hv.
  destruct (key_indices k (String DQ (v ++ String DQ t)) Hk1 Hk2)
    as (Eeq & Hscheme & Ekey & Etail).
  destruct (regexMatch_quoted v t Hv) as (sep & E & Hsep & Hmatch).
  unfold parseStep. rewrite Hscheme, Eeq, Ekey, Etail.
  replace (len k <? 0) with false by (symmetry; apply Z.ltb_ge; unfold len; lia).
  cbn [startsWith]. rewrite Ascii.eqb_refl, Hmatch.
  assert (Em : String DQ (v ++ String DQ sep) = quote v ++ sep).
  { unfold quote. rewrite !append_cons, append_assoc, append_cons. reflexivity. }
  assert (Elast : lastIndexOf (String DQ (v ++ String DQ sep)) DQ + 1
                  = len (quote v)).
  { unfold lastIndexOf. cbn [findLast].
    rewrite findLast_append_last by exact Hsep.
    unfold len, quote. rewrite length_append. simpl. lia. }
  rewrite Elast, Em, substring_prefix.
  destruct (JSON_parse (quote v)) as [x|e]; [|reflexivity].
  f_equal. rewrite <- Em.
  replace (String DQ (v ++ String DQ t))
    with (String DQ (v ++ String DQ sep) ++ afterSeparator t)
    by (rewrite append_cons, append_assoc, append_cons, <- E; reflexivity).
  apply substringFrom_suffix.
Qed.





(** *** A challenge written out and parsed back *)













(** *** Headers that do not parse *)

Lemma parse_reaches_stop (h : string) (info : AuthInfo) (h' : string) (e : exn) :
  reaches h (∅, h) (info, h') -> h' <> "" ->
  parseStep h info h' = Stop e ->
  parseWwwAuthenticateHeader h = Throw e.
Proof.
  intros Hreach Hne Hstep.
  pose proof (parseWwwAuthenticateHeader_loop h (S (String.length h))
                ltac:(lia)) as Hloop.
  rewrite (parseLoop_reaches h _ _ _ _ Hreach (S (String.length h))
             (S (String.length h'))) in Hloop by lia.
  cbn [parseLoop] in Hloop. rewrite nonempty_len, Hstep in Hloop by exact Hne.
  congruence.
Qed.

(** X15. A header value without an equals sign does not parse: when
    it is not empty the parser throws the error that carries the
    header, which is what the bare scheme names that servers send
    ([NTLM], [Negotiate]) run into.  The empty header value parses to
    an object without a scheme, which [setWwwAuthenticate] files under
    the name [undefined] and refuses as unsupported. *)
Theorem header_without_equals :
  (forall h, h <> "" -> find "=" h = None ->
             parseWwwAuthenticateHeader h = Throw (couldNotParse h))
  /\ parseWwwAuthenticateHeader "" = Return ∅
  /\ (forall st,
         fst (setWwwAuthenticate (One "") st)
         = Throw (Error ("No supported authorization types in ["
                         ++ quote "undefined" ++ "]"))).
Proof.
  split; [|split].
  - intros h Hne Heq. apply (parse_reaches_stop h ∅ h).
    + apply reaches_here.
    + exact Hne.
    + assert (E : indexOf h "=" = -1)
        by (unfold indexOf; rewrite Heq; reflexivity).
      unfold parseStep. rewrite E. change (-1 >=? 0) with false.
      rewrite andb_false_r. reflexivity.
  - reflexivity.
  - intros st. rewrite setWwwAuthenticate_run. reflexivity.
Qed.

Lemma header_without_equals_witness :
  parseWwwAuthenticateHeader "Negotiate" = Throw (couldNotParse "Negotiate").
Proof.
  apply (proj1 header_without_equals "Negotiate"); [discriminate | reflexivity].
Defined.

Lemma parseChars_cut_escape (before : string) :
  allChars plainChar before = true ->
  forall fuel acc,
    parseChars fuel (before ++ String BSL (String DQ "")) acc = Throw SyntaxError.
Proof.
  induction before as [|a before IH]; intros Hplain fuel acc.
  - rewrite append_nil_l. destruct fuel as [|[|fuel]]; reflexivity.
  - simpl in Hplain. apply andb_true_iff in Hplain as [Ha Hb].
    unfold plainChar in Ha.
    apply andb_true_iff in Ha as [Ha H32].
    apply andb_true_iff in Ha as [Hq Hbs].
    apply negb_true_iff in Hq, Hbs, H32.
    destruct fuel as [|fuel]; [reflexivity|].
    rewrite append_cons. cbn [parseChars]. rewrite Hq, Hbs, H32.
    apply IH, Hb.
Qed.

(** X16. A quoted value cannot hold an escaped double quote.  The
    value is taken to end at the first double quote after the opening
    one, so when a backslash stands right before that quote (the text
    before it being plain) the text handed to [JSON.parse] ends in the
    middle of the escape, and the parser throws a [SyntaxError]. *)
Theorem escaped_quote_SyntaxError (h : string) (info : AuthInfo)
    (key before rest : string) :
  reaches h (∅, h)
    (info, key ++ String "=" (String DQ (before ++ String BSL (String DQ rest)))) ->
  find "=" key = None -> find " " key = None ->
  allChars plainChar before = true ->
  parseWwwAuthenticateHeader h = Throw SyntaxError.
Proof.
  intros Hreach Hk1 Hk2 Hplain.
  apply (parse_reaches_stop h info _ SyntaxError Hreach).
  - destruct key; discriminate.
  - replace (before ++ String BSL (String DQ rest))
      with ((before ++ String BSL "") ++ String DQ rest)
      by (rewrite append_assoc; reflexivity).
    rewrite parseStep_quoted; try assumption.
    + assert (E : JSON_parse (quote (before ++ String BSL "")) = Throw SyntaxError).
      { unfold JSON_parse, quote. rewrite append_cons, Ascii.eqb_refl.
        rewrite append_assoc, append_cons, append_nil_l.
        apply parseChars_cut_escape, Hplain. }
      rewrite E. reflexivity.
    + rewrite find_append_none by (apply plain_no_quote, Hplain). reflexivity.
Qed.

(** The header [Digest realm=] followed by a quoted value with an
    escaped quote in it. *)
Lemma escaped_quote_SyntaxError_witness :
  parseWwwAuthenticateHeader
    ("Digest realm=" ++ String DQ ("a" ++ String BSL (String DQ ("b" ++ String DQ ""))))
  = Throw SyntaxError.
Proof.
  apply (escaped_quote_SyntaxError _ (<["authType" := "digest"]> ∅)
           "realm" "a" ("b" ++ String DQ "")).
  - eapply reaches_turn; [discriminate | vm_compute; reflexivity | apply reaches_here].
  - reflexivity.
  - reflexivity.
  - reflexivity.
Defined.

(** ** [createRandStringSync] *)

Lemma poolChars_app fromChars buf1 buf2 :
  poolChars fromChars (buf1 ++ buf2)
  = poolChars fromChars buf1 ++ poolChars fromChars buf2.
Proof.
  unfold poolChars. rewrite List.filter_app, List.fold_right_app.
  induction (List.filter _ buf1) as [|b l IH]; cbn [List.fold_right].
  - now rewrite append_nil_l.
  - now rewrite IH, append_assoc.
Qed.

Lemma acceptedCount_app fromChars buf1 buf2 :
  acceptedCount fromChars (buf1 ++ buf2)
  = acceptedCount fromChars buf1 + acceptedCount fromChars buf2.
Proof.
  unfold acceptedCount. rewrite List.filter_app, List.length_app. lia.
Qed.

Lemma acceptedCount_range fromChars buf :
  0 <= acceptedCount fromChars buf <= Z.of_nat (List.length buf).
Proof.
  unfold acceptedCount. pose proof (List.filter_length_le
    (accepted (Z.of_nat (String.length fromChars))) buf). lia.
Qed.

Lemma poolChars_cons fromChars rnum buf :
  poolChars fromChars (rnum :: buf)
  = if exceeds rnum (maxOf (Z.of_nat (String.length fromChars)))
    then poolChars fromChars buf
    else poolCharAt fromChars rnum ++ poolChars fromChars buf.
Proof.
  unfold poolChars. cbn [List.filter]. unfold accepted at 1.
  now destruct (exceeds rnum _).
Qed.

Lemma acceptedCount_cons fromChars rnum buf :
  acceptedCount fromChars (rnum :: buf)
  = if exceeds rnum (maxOf (Z.of_nat (String.length fromChars)))
    then acceptedCount fromChars buf
    else 1 + acceptedCount fromChars buf.
Proof.
  unfold acceptedCount. cbn [List.filter]. unfold accepted at 1.
  destruct (exceeds rnum _); cbn [negb List.length]; lia.
Qed.

Lemma sampleBuf_spec fromChars buf randStr generatedChars :
  sampleBuf fromChars (maxOf (Z.of_nat (String.length fromChars))) buf
    randStr generatedChars
  = (randStr ++ poolChars fromChars buf,
     generatedChars + acceptedCount fromChars buf).
Proof.
  revert randStr generatedChars.
  induction buf as [|rnum buf IH]; intros randStr generatedChars.
  - cbn. now rewrite append_nil_r, Z.add_0_r.
  - cbn [sampleBuf]. rewrite poolChars_cons, acceptedCount_cons.
    destruct (exceeds rnum _).
    + apply IH.
    + rewrite IH, append_assoc. f_equal. lia.
Qed.

Lemma map_seq_shift {A} (f : nat -> A) (k r : nat) :
  List.map f (List.seq r k) = List.map (fun i => f (i + r)%nat) (List.seq 0 k).
Proof.
  revert r. induction k as [|k IH]; intro r; [reflexivity|].
  cbn [List.seq List.map]. f_equal.
  rewrite IH, <- List.seq_shift, List.map_map.
  apply List.map_ext. intro i. f_equal. lia.
Qed.

(** The first [r + k] bytes of a stream are its first [r] bytes and the
    first [k] bytes of what is left. *)
Lemma randomBytes_split (r k : nat) (e : Entropy) :
  fst (randomBytes (r + k) e)
  = (fst (randomBytes r e)
     ++ fst (randomBytes k (snd (randomBytes r e))))%list.
Proof.
  cbn [randomBytes fst snd].
  rewrite List.seq_app, List.map_app. f_equal.
  cbn [Nat.add]. now rewrite (map_seq_shift _ k r).
Qed.

Lemma length_randomBytes (n : nat) (e : Entropy) :
  List.length (fst (randomBytes n e)) = n.
Proof. cbn [randomBytes fst]. now rewrite List.length_map, List.length_seq. Qed.

Lemma sampleLoop_done fuel strLen fromChars max randStr generatedChars e :
  strLen <= generatedChars ->
  sampleLoop fuel strLen fromChars max randStr generatedChars e
  = Some (randStr, e).
Proof.
  intro H. destruct fuel; cbn [sampleLoop];
    now rewrite (proj2 (Z.ltb_ge _ _) H).
Qed.

Lemma sampleLoop_round fuel strLen fromChars randStr generatedChars e :
  generatedChars < strLen ->
  let buf := fst (randomBytes (Z.to_nat (strLen - generatedChars)) e) in
  sampleLoop (S fuel) strLen fromChars
    (maxOf (Z.of_nat (String.length fromChars))) randStr generatedChars e
  = sampleLoop fuel strLen fromChars
      (maxOf (Z.of_nat (String.length fromChars)))
      (randStr ++ poolChars fromChars buf)
      (generatedChars + acceptedCount fromChars buf)
      (snd (randomBytes (Z.to_nat (strLen - generatedChars)) e)).
Proof.
  intros H buf. cbn [sampleLoop]. rewrite (proj2 (Z.ltb_lt _ _) H).
  rewrite (surjective_pairing (randomBytes _ e)), sampleBuf_spec.
  reflexivity.
Qed.

(** The loop uses the stream up to the byte that completes the string,
    and no further. *)
Lemma sampleLoop_first_accepted fromChars strLen :
  forall (m fuel : nat) randStr generatedChars (e : Entropy),
    generatedChars + acceptedCount fromChars (fst (randomBytes m e)) = strLen ->
    (m = O \/
     accepted (Z.of_nat (String.length fromChars)) (e (m - 1)%nat mod 256)
     = true) ->
    (m < fuel)%nat ->
    exists e',
      sampleLoop fuel strLen fromChars
        (maxOf (Z.of_nat (String.length fromChars))) randStr generatedChars e
      = Some (randStr ++ poolChars fromChars (fst (randomBytes m e)), e')
      /\ forall i, e' i = e (i + m)%nat.
Proof.
  induction m as [m IH] using lt_wf_ind.
  intros fuel randStr g e Hcount Hlast Hfuel.
  destruct fuel as [|fuel]; [lia|].
  pose proof (acceptedCount_range fromChars (fst (randomBytes m e))) as Hr.
  rewrite length_randomBytes in Hr.
  destruct (Z.lt_ge_cases g strLen) as [Hlt|Hge].
  - set (r := Z.to_nat (strLen - g)).
    assert (Hm : exists k, m = (r + k)%nat /\ (0 < r)%nat).
    { exists (m - r)%nat. subst r. lia. }
    destruct Hm as (k & -> & Hpos).
    rewrite sampleLoop_round by exact Hlt. fold r.
    rewrite randomBytes_split in Hcount |- *.
    rewrite acceptedCount_app in Hcount. rewrite poolChars_app.
    destruct (IH k ltac:(lia) fuel
                (randStr ++ poolChars fromChars (fst (randomBytes r e)))
                (g + acceptedCount fromChars (fst (randomBytes r e)))
                (snd (randomBytes r e))) as (e' & He' & Hshift).
    + lia.
    + destruct k as [|k]; [now left|right].
      destruct Hlast as [Hlast|Hlast]; [lia|].
      cbn [randomBytes snd].
      replace (S k - 1 + r)%nat with (r + S k - 1)%nat by lia. exact Hlast.
    + lia.
    + exists e'. split.
      * rewrite He'. now rewrite append_assoc.
      * intro i. rewrite Hshift. cbn [randomBytes snd]. f_equal. lia.
  - assert (m = O) as ->.
    { destruct Hlast as [Hm|Hlast]; [exact Hm|].
      destruct m as [|m]; [reflexivity|exfalso].
      replace (S m) with (m + 1)%nat in Hcount by lia.
      rewrite randomBytes_split, acceptedCount_app in Hcount.
      pose proof (acceptedCount_range fromChars (fst (randomBytes m e))).
      cbn [randomBytes fst snd List.seq List.map] in Hcount, H.
      rewrite acceptedCount_cons in Hcount.
      unfold accepted in Hlast.
      replace (S m - 1)%nat with (0 + m)%nat in Hlast by lia.
      destruct (exceeds _ _); [discriminate|].
      change (acceptedCount fromChars []) with 0 in Hcount. lia. }
    rewrite sampleLoop_done by exact Hge.
    exists e. split.
    + cbn [randomBytes fst List.seq List.map].
      change (poolChars fromChars []) with "". now rewrite append_nil_r.
    + intro i. f_equal. lia.
Qed.

Lemma get_inPool (fromChars : string) (i : nat) :
  (i < String.length fromChars)%nat ->
  exists a, String.get i fromChars = Some a /\ inPool fromChars a = true.
Proof.
  revert i. induction fromChars as [|b s IH]; intros i Hi; cbn in Hi; [lia|].
  destruct i as [|i]; cbn [String.get inPool].
  - exists b. now rewrite Ascii.eqb_refl.
  - destruct (IH i ltac:(lia)) as (a & Ha & Hin).
    exists a. rewrite Ha, Hin. split; [reflexivity|apply orb_true_r].
Qed.

Lemma poolCharAt_inPool (fromChars : string) (rnum : Z) :
  (0 < String.length fromChars)%nat -> 0 <= rnum ->
  exists a, poolCharAt fromChars rnum = String a ""
            /\ inPool fromChars a = true.
Proof.
  intros Hn Hb. unfold poolCharAt.
  destruct (Z.eqb_spec (Z.of_nat (String.length fromChars)) 0) as [E|_]; [lia|].
  rewrite Z.rem_mod_nonneg by lia.
  destruct (get_inPool fromChars
              (Z.to_nat (rnum mod Z.of_nat (String.length fromChars))))
    as (a & Ha & Hin).
  { pose proof (Z.mod_pos_bound rnum (Z.of_nat (String.length fromChars))).
    lia. }
  exists a. now rewrite Ha.
Qed.

Lemma poolChars_shape (fromChars : string) (buf : list Z) :
  (0 < String.length fromChars)%nat ->
  List.Forall (fun rnum => 0 <= rnum) buf ->
  Z.of_nat (String.length (poolChars fromChars buf))
  = acceptedCount fromChars buf
  /\ allChars (inPool fromChars) (poolChars fromChars buf) = true.
Proof.
  intros Hn Hbuf. induction Hbuf as [|rnum buf Hb _ IH].
  - now split.
  - rewrite poolChars_cons, acceptedCount_cons.
    destruct (exceeds rnum _); [exact IH|].
    destruct (poolCharAt_inPool fromChars rnum Hn Hb) as (a & -> & Hin).
    destruct IH as [IHl IHc]. rewrite append_cons, append_nil_l.
    cbn [String.length allChars]. rewrite Hin, IHc. split; [lia|reflexivity].
Qed.

Lemma randomBytes_nonneg (n : nat) (e : Entropy) :
  List.Forall (fun rnum => 0 <= rnum) (fst (randomBytes n e)).
Proof.
  cbn [randomBytes fst]. apply List.Forall_forall. intros b Hb.
  apply List.in_map_iff in Hb. destruct Hb as (i & <- & _).
  apply Z.mod_pos_bound. lia.
Qed.

(** X17. [createRandStringSync] makes the string of the first [strLen]
    bytes of the random source that are not above [max], and it reads
    the source up to the last of them and no further: when the first
    [m] bytes hold [strLen] such bytes and end with one, the function
    returns their characters and leaves the source after [m] bytes.
    For a pool that is not empty the result has [strLen] characters,
    all of the pool. *)
Theorem createRandStringSync_first_accepted
    (strLen : Z) (fromChars : string) (m fuel : nat) (e : Entropy) :
  (String.length fromChars <= 256)%nat ->
  acceptedCount fromChars (fst (randomBytes m e)) = strLen ->
  (m = O \/
   accepted (Z.of_nat (String.length fromChars)) (e (m - 1)%nat mod 256)
   = true) ->
  (m < fuel)%nat ->
  exists randStr e',
    createRandStringSync fuel strLen fromChars e = Some (Return randStr, e')
    /\ randStr = poolChars fromChars (fst (randomBytes m e))
    /\ (forall i, e' i = e (i + m)%nat)
    /\ ((0 < String.length fromChars)%nat ->
        Z.of_nat (String.length randStr) = strLen
        /\ allChars (inPool fromChars) randStr = true).
Proof.
  intros Hpool Hcount Hlast Hfuel.
  destruct (sampleLoop_first_accepted fromChars strLen m fuel "" 0 e)
    as (e' & Hloop & Hshift); [lia|exact Hlast|exact Hfuel|].
  exists (poolChars fromChars (fst (randomBytes m e))), e'.
  split; [|split; [reflexivity|split; [exact Hshift|]]].
  - unfold createRandStringSync.
    rewrite (proj2 (Z.ltb_ge _ _)) by lia.
    now rewrite Hloop, append_nil_l.
  - intro Hn. rewrite <- Hcount.
    apply poolChars_shape; [exact Hn|apply randomBytes_nonneg].
Qed.

Lemma createRandStringSync_first_accepted_witness :
  exists e',
    createRandStringSync 4 2 "abc"
      (fun i => match i with O => 255 | 1%nat => 4 | _ => 7 end)
    = Some (Return "bb", e').
Proof.
  destruct (createRandStringSync_first_accepted 2 "abc" 3 4
              (fun i => match i with O => 255 | 1%nat => 4 | _ => 7 end))
    as (randStr & e' & Hrun & Hstr & _).
  - cbn. lia.
  - vm_compute. reflexivity.
  - right. vm_compute. reflexivity.
  - lia.
  - exists e'. rewrite Hrun, Hstr. vm_compute. reflexivity.
Defined.

(** *** No index of the pool is favoured *)

Lemma filter_none {A} (f : A -> bool) (l : list A) :
  (forall x, List.In x l -> f x = false) -> List.filter f l = [].
Proof.
  induction l as [|x l IH]; intro H; [reflexivity|].
  cbn [List.filter]. rewrite (H x (or_introl eq_refl)).
  apply IH. intros y Hy. apply H. now right.
Qed.




Lemma maxOf_pos (charPoolLen : Z) :
  0 < charPoolLen ->
  maxOf charPoolLen = Some (256 / charPoolLen * charPoolLen - 1).
Proof.
  intro H. unfold maxOf.
  now destruct (Z.eqb_spec charPoolLen 0) as [E|_]; [lia|].
Qed.




(** *** The edges: the size of the pool, the length asked for *)

Lemma poolChars_empty_pool (buf : list Z) :
  poolChars "" buf = repeatText (List.length buf) "undefined"
  /\ acceptedCount "" buf = Z.of_nat (List.length buf).
Proof.
  induction buf as [|rnum buf [IHs IHc]]; [now split|].
  rewrite poolChars_cons, acceptedCount_cons, IHs, IHc.
  change (exceeds rnum (maxOf (Z.of_nat (String.length "")))) with false.
  change (poolCharAt "" rnum) with "undefined".
  cbn [List.length repeatText]. split; [reflexivity|lia].
Qed.

(** X19. The edges of [createRandStringSync]: a pool of more than 256
    characters is refused with an error before any byte is read; a
    length that is not positive gives the empty string and reads no
    byte; and the empty pool is not refused, the result is the text
    [undefined] once for every character asked for. *)
Theorem createRandStringSync_edges
    (fuel : nat) (strLen : Z) (fromChars : string) (e : Entropy) :
  ((256 < String.length fromChars)%nat ->
   createRandStringSync fuel strLen fromChars e
   = Some (Throw (Error tooManyCharacters), e))
  /\ ((String.length fromChars <= 256)%nat -> strLen <= 0 ->
      createRandStringSync fuel strLen fromChars e = Some (Return "", e))
  /\ (fromChars = "" -> 0 < strLen -> (0 < fuel)%nat ->
      createRandStringSync fuel strLen fromChars e
      = Some (Return (repeatText (Z.to_nat strLen) "undefined"),
              snd (randomBytes (Z.to_nat strLen) e))).
Proof.
  split; [|split].
  - intro H. unfold createRandStringSync.
    now rewrite (proj2 (Z.ltb_lt _ _)) by lia.
  - intros H Hlen. unfold createRandStringSync.
    rewrite (proj2 (Z.ltb_ge _ _)) by lia.
    now rewrite sampleLoop_done by lia.
  - intros -> Hlen Hfuel. destruct fuel as [|fuel]; [lia|].
    unfold createRandStringSync. cbn [String.length Z.of_nat Z.ltb Z.compare].
    change (maxOf 0) with (maxOf (Z.of_nat (String.length ""))).
    rewrite sampleLoop_round by lia. rewrite Z.sub_0_r.
    destruct (poolChars_empty_pool (fst (randomBytes (Z.to_nat strLen) e)))
      as [-> ->].
    rewrite length_randomBytes, sampleLoop_done by lia.
    now rewrite append_nil_l.
Qed.

Lemma createRandStringSync_edges_witness :
  createRandStringSync 0 5 (repeatText 257 "a") (fun _ => 0)
  = Some (Throw (Error tooManyCharacters), fun _ => 0)
  /\ createRandStringSync 0 0 "abc" (fun _ => 0) = Some (Return "", fun _ => 0)
  /\ createRandStringSync 1 2 "" (fun _ => 0)
     = Some (Return "undefinedundefined",
             snd (randomBytes 2 (fun _ => 0))).
Proof.
  split; [|split].
  - apply (proj1 (createRandStringSync_edges 0 5 (repeatText 257 "a")
                    (fun _ => 0))).
    vm_compute. lia.
  - apply (proj1 (proj2 (createRandStringSync_edges 0 0 "abc" (fun _ => 0))));
      [cbn|]; lia.
  - apply (proj2 (proj2 (createRandStringSync_edges 1 2 "" (fun _ => 0))));
      [reflexivity|lia|lia].
Defined.

(** *** How many rounds the loop takes *)

Lemma accepted_all (fromChars : string) (buf : list Z) :
  (1 <= String.length fromChars)%nat ->
  256 mod Z.of_nat (String.length fromChars) = 0 ->
  List.Forall (fun rnum => rnum < 256) buf ->
  acceptedCount fromChars buf = Z.of_nat (List.length buf).
Proof.
  intros Hn Hdiv Hbuf. induction Hbuf as [|rnum buf Hb _ IH]; [reflexivity|].
  rewrite acceptedCount_cons, maxOf_pos, IH by lia. cbn [exceeds].
  pose proof (Z.div_mod 256 (Z.of_nat (String.length fromChars)) ltac:(lia)).
  destruct (Z.ltb_spec
              (256 / Z.of_nat (String.length fromChars)
               * Z.of_nat (String.length fromChars) - 1) rnum);
    cbn [List.length]; lia.
Qed.

Lemma randomBytes_below (n : nat) (e : Entropy) :
  List.Forall (fun rnum => rnum < 256) (fst (randomBytes n e)).
Proof.
  cbn [randomBytes fst]. apply List.Forall_forall. intros b Hb.
  apply List.in_map_iff in Hb. destruct Hb as (i & <- & _).
  apply Z.mod_pos_bound. lia.
Qed.

Lemma rejected_all (fromChars : string) (n : nat) :
  (1 <= String.length fromChars <= 256)%nat ->
  256 mod Z.of_nat (String.length fromChars) <> 0 ->
  poolChars fromChars (fst (randomBytes n (fun _ => 255))) = ""
  /\ acceptedCount fromChars (fst (randomBytes n (fun _ => 255))) = 0.
Proof.
  intros Hn Hdiv. unfold poolChars, acceptedCount.
  rewrite filter_none; [now split|].
  intros b Hb. cbn [randomBytes fst] in Hb.
  apply List.in_map_iff in Hb. destruct Hb as (i & <- & _).
  unfold accepted. rewrite maxOf_pos by lia. cbn [exceeds].
  change (255 mod 256) with 255.
  pose proof (Z.div_mod 256 (Z.of_nat (String.length fromChars)) ltac:(lia)).
  pose proof (Z.mod_pos_bound 256 (Z.of_nat (String.length fromChars))
                ltac:(lia)).
  destruct (Z.ltb_spec
              (256 / Z.of_nat (String.length fromChars)
               * Z.of_nat (String.length fromChars) - 1) 255);
    [reflexivity|lia].
Qed.

(** X20. When the length of the pool divides 256 no byte is dropped
    and [createRandStringSync] returns after one round, whatever the
    bytes are.  For any other pool the end of the loop depends on the
    bytes: on a source that delivers the byte 255 only, the loop does
    not end. *)
Theorem createRandStringSync_rounds
    (strLen : Z) (fromChars : string) :
  (1 <= String.length fromChars <= 256)%nat ->
  0 < strLen ->
  (256 mod Z.of_nat (String.length fromChars) = 0 ->
   forall (fuel : nat) (e : Entropy), (0 < fuel)%nat ->
     exists randStr,
       createRandStringSync fuel strLen fromChars e
       = Some (Return randStr, snd (randomBytes (Z.to_nat strLen) e))
       /\ Z.of_nat (String.length randStr) = strLen
       /\ allChars (inPool fromChars) randStr = true)
  /\ (256 mod Z.of_nat (String.length fromChars) <> 0 ->
      forall fuel : nat,
        createRandStringSync fuel strLen fromChars (fun _ => 255) = None).
Proof.
  intros Hn Hlen. split.
  - intros Hdiv fuel e Hfuel. destruct fuel as [|fuel]; [lia|].
    set (buf := fst (randomBytes (Z.to_nat strLen) e)).
    assert (Hcount : acceptedCount fromChars buf = strLen).
    { subst buf. rewrite accepted_all, length_randomBytes;
        [lia|lia|exact Hdiv|apply randomBytes_below]. }
    destruct (poolChars_shape fromChars buf) as [Hl Hc];
      [lia|apply randomBytes_nonneg|].
    exists (poolChars fromChars buf). split; [|split].
    + unfold createRandStringSync.
      rewrite (proj2 (Z.ltb_ge _ _)) by lia.
      rewrite sampleLoop_round by lia. rewrite Z.sub_0_r. fold buf.
      rewrite Hcount, sampleLoop_done by lia. now rewrite append_nil_l.
    + now rewrite Hl.
    + exact Hc.
  - intros Hdiv fuel. unfold createRandStringSync.
    rewrite (proj2 (Z.ltb_ge _ _)) by lia.
    enough (H : sampleLoop fuel strLen fromChars
                  (maxOf (Z.of_nat (String.length fromChars))) "" 0
                  (fun _ => 255) = None) by now rewrite H.
    induction fuel as [|fuel IH].
    + cbn [sampleLoop]. now rewrite (proj2 (Z.ltb_lt _ _)) by lia.
    + rewrite sampleLoop_round by lia.
      destruct (rejected_all fromChars (Z.to_nat (strLen - 0)) Hn Hdiv)
        as [-> ->].
      exact IH.
Qed.

Lemma createRandStringSync_rounds_witness :
  (exists randStr,
     createRandStringSync 1 3 "0123456789abcdef" (fun i => Z.of_nat i * 37)
     = Some (Return randStr,
             snd (randomBytes 3 (fun i => Z.of_nat i * 37)))
     /\ Z.of_nat (String.length randStr) = 3)
  /\ createRandStringSync 1000 3 "abc" (fun _ => 255) = None.
Proof.
  destruct (createRandStringSync_rounds 3 "0123456789abcdef") as [H _];
    [cbn; lia|lia|].
  destruct (H eq_refl 1%nat (fun i => Z.of_nat i * 37) ltac:(lia))
    as (randStr & Hrun & Hl & _).
  split; [now exists randStr|].
  apply (proj2 (createRandStringSync_rounds 3 "abc" ltac:(cbn; lia)
                  ltac:(lia))).
  vm_compute. discriminate.
Defined.

(** ** The queue *)

Section QueueFacts.

Context {T : Type}.

Implicit Types (h : Queue.Heap T) (nodes : list (nat * T)).
Implicit Types (st : Queue.Heap T * Queue.Queue).

Lemma chain_alloc h nodes node :
  chain h nodes -> chain (h ++ [node])%list nodes.
Proof.
  induction nodes as [|[l x] nodes IH]; [easy|].
  intros [Hl Hc]. split; [|now apply IH].
  rewrite lookup_app_l; [exact Hl|].
  now apply lookup_lt_Some in Hl.
Qed.

Lemma chain_allocated h nodes l :
  chain h nodes -> List.In l (List.map fst nodes) -> (l < List.length h)%nat.
Proof.
  induction nodes as [|[l0 x] nodes IH]; [easy|].
  intros [Hl Hc] [<-|Hin]; [|now apply IH].
  now apply lookup_lt_Some in Hl.
Qed.

Lemma lastLoc_In nodes t :
  lastLoc nodes = Some t -> List.In t (List.map fst nodes).
Proof.
  induction nodes as [|[l x] nodes IH]; [easy|].
  cbn [lastLoc]. destruct nodes as [|n nodes].
  - intros [= ->]. now left.
  - intro H. right. now apply IH.
Qed.

Lemma lastLoc_snoc nodes l x : lastLoc (nodes ++ [(l, x)])%list = Some l.
Proof.
  induction nodes as [|[l0 x0] nodes IH]; [reflexivity|].
  cbn [app lastLoc]. rewrite IH. now destruct nodes.
Qed.

Lemma lastLoc_cons nodes l x :
  nodes <> [] -> lastLoc ((l, x) :: nodes) = lastLoc nodes.
Proof. now destruct nodes. Qed.

Lemma locOf_snoc nodes l x :
  nodes <> [] -> locOf (nodes ++ [(l, x)])%list = locOf nodes.
Proof. now destruct nodes. Qed.

(** Linking a new node behind the last one. *)
Lemma chain_snoc h nodes t x :
  chain h nodes ->
  List.NoDup (List.map fst nodes) ->
  lastLoc nodes = Some t ->
  chain (Queue.setNext t (Some (List.length h))
           (h ++ [Queue.mkQueueNode x None])%list)
    (nodes ++ [(List.length h, x)])%list.
Proof.
  unfold Queue.setNext.
  induction nodes as [|[l0 x0] nodes IH]; [easy|].
  intros [Hl Hc] Hnd Ht. apply List.NoDup_cons_iff in Hnd as [Hnotin Hnd].
  pose proof (lookup_lt_Some _ _ _ Hl) as Hlt.
  destruct nodes as [|n nodes].
  - injection Ht as ->. cbn [app chain locOf]. split; [|split; [|exact I]].
    + rewrite list_lookup_alter_eq, lookup_app_l, Hl by exact Hlt. reflexivity.
    + rewrite list_lookup_alter_ne by lia.
      now rewrite list_lookup_middle.
  - assert (Ht' : lastLoc (n :: nodes) = Some t) by exact Ht.
    change (((l0, x0) :: n :: nodes) ++ [(List.length h, x)])%list
      with ((l0, x0) :: ((n :: nodes) ++ [(List.length h, x)]))%list.
    cbn [chain]. split; [|now apply IH].
    rewrite locOf_snoc by easy.
    rewrite list_lookup_alter_ne, lookup_app_l; [exact Hl|exact Hlt|].
    intros ->. apply Hnotin. exact (lastLoc_In (n :: nodes) l0 Ht').
Qed.

Lemma holds_new : holds (@newQueue T) [] true.
Proof. repeat split. constructor. Qed.

Lemma holds_clear (st : Queue.Heap T * Queue.Queue) :
  holds (Queue.clear st) [] true.
Proof. repeat split. constructor. Qed.

Lemma holds_pushBack_attached st nodes x :
  holds st nodes true -> nodes <> [] ->
  holds (Queue.pushBack x st) (nodes ++ [(List.length (fst st), x)])%list true.
Proof.
  destruct st as [h this]. intros (Hc & Hnd & Hh & Ht) Hne.
  cbn [fst snd] in *. unfold Queue.pushBack.
  destruct (lastLoc nodes) as [t|] eqn:El.
  2:{ destruct nodes as [|[l0 x0] nodes]; [easy|].
      exfalso. clear - El. revert l0 x0 El.
      induction nodes as [|[l1 x1] nodes IH]; intros l0 x0 El; [easy|].
      now apply (IH l1 x1). }
  rewrite Ht. cbn [Queue.alloc].
  pose proof (chain_snoc h nodes t x Hc Hnd El) as Hs.
  pose proof (chain_allocated h nodes t Hc (lastLoc_In _ _ El)) as Hlt.
  repeat split; cbn [fst snd Queue.head Queue.tail].
  - exact Hs.
  - rewrite List.map_app. cbn [List.map fst].
    apply List.NoDup_app; [exact Hnd|repeat constructor; easy|].
    intros l Hin [<-|[]].
    pose proof (chain_allocated h nodes _ Hc Hin). lia.
  - rewrite Hh. now rewrite locOf_snoc.
  - rewrite lastLoc_snoc. unfold Queue.nextOf, Queue.setNext.
    rewrite list_lookup_alter_eq, lookup_app_l by exact Hlt.
    destruct (h !! t) eqn:E; [reflexivity|].
    apply lookup_ge_None in E. lia.
Qed.

Lemma holds_pushBack_detached st nodes attached x :
  holds st nodes attached -> Queue.tail (snd st) = None ->
  holds (Queue.pushBack x st) [(List.length (fst st), x)] true.
Proof.
  destruct st as [h this]. intros (Hc & Hnd & Hh & Ht) Hnone.
  cbn [fst snd] in *. unfold Queue.pushBack. rewrite Hnone.
  cbn [Queue.alloc]. repeat split; cbn [fst snd List.map].
  - now rewrite list_lookup_middle.
  - repeat constructor. easy.
Qed.

Lemma holds_popFront st l x nodes attached :
  holds st ((l, x) :: nodes) attached ->
  exists st',
    Queue.popFront st = (Some x, st') /\ holds st' nodes attached.
Proof.
  destruct st as [h this]. intros ([Hl Hc] & Hnd & Hh & Ht).
  cbn [fst snd] in *. unfold Queue.popFront. rewrite Hh. cbn [locOf].
  unfold Queue.nextOf, Queue.objOf. rewrite Hl.
  cbn [Queue.next Queue.obj Queue.head Queue.tail].
  eexists. split; [reflexivity|].
  apply List.NoDup_cons_iff in Hnd as [_ Hnd].
  unfold holds. cbn [fst snd].
  destruct nodes as [|[l1 x1] nodes]; cbn [locOf notSet isSet negb].
  - split; [exact I|split; [exact Hnd|split; [reflexivity|]]].
    now destruct attached.
  - split; [exact Hc|split; [exact Hnd|split; [reflexivity|]]].
    cbn [Queue.tail]. rewrite Ht.
    destruct attached; [|reflexivity]. now rewrite lastLoc_cons.
Qed.

Lemma holds_popFront_empty st attached :
  holds st [] attached -> Queue.popFront st = (None, st).
Proof.
  destruct st as [h this]. intros (_ & _ & Hh & _).
  cbn [fst snd locOf] in *. unfold Queue.popFront. now rewrite Hh.
Qed.

Lemma holds_pushFront st nodes attached x :
  holds st nodes attached ->
  holds (Queue.pushFront x st) ((List.length (fst st), x) :: nodes)
    (attached && match nodes with [] => false | _ => true end).
Proof.
  destruct st as [h this]. intros (Hc & Hnd & Hh & Ht).
  cbn [fst snd] in *. unfold Queue.pushFront. cbn [Queue.alloc].
  repeat split; cbn [fst snd Queue.head Queue.tail List.map].
  - rewrite list_lookup_middle by reflexivity. now rewrite Hh.
  - now apply chain_alloc.
  - apply List.NoDup_cons_iff. split; [|exact Hnd].
    intro Hin. pose proof (chain_allocated h nodes _ Hc Hin). lia.
  - rewrite Ht. destruct attached; cbn [andb]; [|reflexivity].
    destruct nodes as [|n nodes]; [reflexivity|].
    now rewrite lastLoc_cons.
Qed.

Lemma holds_isEmpty st nodes attached :
  holds st nodes attached ->
  Queue.isEmpty st = match nodes with [] => true | _ => false end.
Proof.
  intros (_ & _ & Hh & _). unfold Queue.isEmpty. rewrite Hh.
  now destruct nodes as [|[l x] nodes].
Qed.

(** An empty queue has no tail either. *)
Lemma holds_empty_tail st attached :
  holds st [] attached -> Queue.tail (snd st) = None.
Proof. intros (_ & _ & _ & Ht). rewrite Ht. now destruct attached. Qed.

End QueueFacts.

Section QueueTheorems.

Context {T : Type}.

Implicit Types (h : Queue.Heap T) (nodes : list (nat * T)).
Implicit Types (st : Queue.Heap T * Queue.Queue) (c : QueueCall T).

(** Every call keeps the queue well formed. *)
Lemma holds_queueCall c st nodes attached :
  holds st nodes attached ->
  exists nodes' attached', holds (snd (queueCall c st)) nodes' attached'.
Proof.
  intro H. destruct c as [x| | | |x]; cbn [queueCall snd].
  - destruct (Queue.tail (snd st)) as [t|] eqn:Et.
    + destruct attached.
      * destruct nodes as [|n nodes].
        { apply holds_empty_tail in H. congruence. }
        eexists _, true.
        apply holds_pushBack_attached; [exact H|discriminate].
      * destruct H as (_ & _ & _ & Ht). congruence.
    + eexists _, true. eapply holds_pushBack_detached; eassumption.
  - destruct nodes as [|[l x] nodes].
    + rewrite (holds_popFront_empty st attached H). now exists [], attached.
    + destruct (holds_popFront st l x nodes attached H) as (st' & -> & H').
      now exists nodes, attached.
  - now exists nodes, attached.
  - exists [], true. apply holds_clear.
  - eexists _, _. exact (holds_pushFront st nodes attached x H).
Qed.

Lemma holds_queueCalls (cs : list (QueueCall T)) st nodes attached :
  holds st nodes attached ->
  exists nodes' attached', holds (snd (queueCalls cs st)) nodes' attached'.
Proof.
  revert st nodes attached.
  induction cs as [|c cs IH]; intros st nodes attached H.
  - now exists nodes, attached.
  - cbn [queueCalls].
    destruct (holds_queueCall c st nodes attached H) as (nodes1 & att1 & H1).
    destruct (queueCall c st) as [a st1]. cbn [snd] in H1.
    destruct (IH st1 nodes1 att1 H1) as (nodes2 & att2 & H2).
    destruct (queueCalls cs st1) as [answers st2]. now exists nodes2, att2.
Qed.

(** One call on a queue whose tail is in place, against the list. *)
Lemma fifo_queueCall c st nodes :
  holds st nodes true ->
  match c, nodes with QPushFront _, [] => false | _, _ => true end = true ->
  exists nodes',
    fst (queueCall c st) = fst (listCall c (List.map snd nodes))
    /\ holds (snd (queueCall c st)) nodes' true
    /\ List.map snd nodes' = snd (listCall c (List.map snd nodes)).
Proof.
  intros H Hc. destruct c as [x| | | |x]; cbn [queueCall listCall fst snd].
  - destruct nodes as [|n nodes].
    + exists [(List.length (fst st), x)]. split; [reflexivity|split].
      * eapply holds_pushBack_detached;
          [exact H|exact (holds_empty_tail st true H)].
      * reflexivity.
    + eexists. split; [reflexivity|split].
      * apply holds_pushBack_attached; [exact H|discriminate].
      * now rewrite List.map_app.
  - destruct nodes as [|[l x] nodes].
    + rewrite (holds_popFront_empty st true H). now exists [].
    + destruct (holds_popFront st l x nodes true H) as (st' & -> & H').
      now exists nodes.
  - exists nodes. rewrite (holds_isEmpty st nodes true H).
    split; [|now split]. now destruct nodes.
  - exists []. split; [reflexivity|split; [apply holds_clear|reflexivity]].
  - destruct nodes as [|n nodes]; [discriminate|].
    eexists. split; [reflexivity|split].
    + exact (holds_pushFront st (n :: nodes) true x H).
    + reflexivity.
Qed.

Lemma fifo_queueCalls (cs : list (QueueCall T)) st nodes :
  holds st nodes true ->
  pushFrontOnFilled cs (List.map snd nodes) = true ->
  fst (queueCalls cs st) = fst (listCalls cs (List.map snd nodes)).
Proof.
  revert st nodes. induction cs as [|c cs IH]; intros st nodes H Hg.
  - reflexivity.
  - cbn [queueCalls listCalls].
    assert (Hc : match c, nodes with QPushFront _, [] => false | _, _ => true
                 end = true).
    { cbn [pushFrontOnFilled] in Hg.
      destruct c, nodes; try reflexivity; exact Hg. }
    assert (Hg' : pushFrontOnFilled cs
                    (snd (listCall c (List.map snd nodes))) = true).
    { cbn [pushFrontOnFilled] in Hg.
      destruct c, nodes; try exact Hg; discriminate. }
    destruct (fifo_queueCall c st nodes H Hc) as (nodes' & Ha & H' & Hm).
    destruct (queueCall c st) as [a st1].
    destruct (listCall c (List.map snd nodes)) as [a' xs1].
    cbn [fst snd] in *. subst a' xs1.
    specialize (IH st1 nodes' H' Hg').
    destruct (queueCalls cs st1) as [answers st2].
    destruct (listCalls cs (List.map snd nodes')) as [answers' xs2].
    cbn [fst] in *. now subst.
Qed.

(** X21. A queue on which [pushFront] is not called while it is empty
    is a first-in first-out list: whatever the calls of [pushBack],
    [popFront], [isEmpty], [clear] and [pushFront] on a new queue,
    every answer is the answer of the same calls on a list, with
    [null] for [popFront] on the empty list. *)
Theorem queue_is_fifo (cs : list (QueueCall T)) :
  pushFrontOnFilled cs [] = true ->
  fst (queueCalls cs newQueue) = fst (listCalls cs []).
Proof.
  intro H. exact (fifo_queueCalls cs newQueue [] holds_new H).
Qed.

(** X22. [pushFront] on an empty queue does not set [tail], so the
    element is lost with the next [pushBack]: on a queue that is empty
    after any calls, [pushFront x] and [pushBack y] leave a queue that
    holds [y] alone. *)
Theorem pushFront_on_empty_queue_is_lost (cs : list (QueueCall T)) (x y : T) :
  Queue.isEmpty (snd (queueCalls cs newQueue)) = true ->
  fst (queueCalls [QPushFront x; QPushBack y; QPopFront; QPopFront; QIsEmpty]
         (snd (queueCalls cs newQueue)))
  = [QVoid; QVoid; QPopped (Some y); QPopped None; QEmpty true].
Proof.
  destruct (holds_queueCalls cs newQueue [] true holds_new)
    as (nodes & attached & H).
  set (st := snd (queueCalls cs newQueue)) in *. intro He.
  rewrite (holds_isEmpty st nodes attached H) in He.
  destruct nodes as [|n nodes]; [|discriminate].
  pose proof (holds_pushFront st [] attached x H) as H1.
  rewrite andb_false_r in H1.
  assert (Ht : Queue.tail (snd (Queue.pushFront x st)) = None)
    by now destruct H1 as (_ & _ & _ & ->).
  pose proof (holds_pushBack_detached _ _ _ y H1 Ht) as H2.
  destruct (holds_popFront _ _ _ _ _ H2) as (st3 & E3 & H3).
  pose proof (holds_popFront_empty st3 true H3) as E4.
  pose proof (holds_isEmpty st3 [] true H3) as E5.
  cbn [queueCalls queueCall]. rewrite E3, E4, E5. reflexivity.
Qed.

Lemma chain_length h nodes :
  chain h nodes -> List.NoDup (List.map fst nodes) ->
  (List.length nodes <= List.length h)%nat.
Proof.
  intros Hc Hnd.
  pose proof (List.NoDup_incl_length (l := List.map fst nodes)
                (l' := List.seq 0 (List.length h)) Hnd) as Hle.
  rewrite List.length_map, List.length_seq in Hle. apply Hle.
  intros l Hl. apply List.in_seq.
  pose proof (chain_allocated h nodes l Hc Hl). lia.
Qed.

Lemma drain_holds nodes :
  forall (fuel : nat) st attached,
    holds st nodes attached -> (List.length nodes <= fuel)%nat ->
    drain fuel st = Some (List.map Some (List.map snd nodes)).
Proof.
  induction nodes as [|[l x] nodes IH]; intros fuel st attached H Hf.
  - pose proof (holds_isEmpty st [] attached H) as E.
    destruct fuel; cbn [drain]; now rewrite E.
  - pose proof (holds_isEmpty st _ attached H) as E.
    destruct fuel as [|fuel]; [cbn in Hf; lia|].
    cbn [drain]. rewrite E.
    destruct (holds_popFront st l x nodes attached H) as (st' & -> & H').
    rewrite (IH fuel st' attached H') by (cbn in Hf; lia). reflexivity.
Qed.

Lemma forOf_chain h nodes :
  forall fuel : nat,
    chain h nodes -> (List.length nodes < fuel)%nat ->
    forOf fuel h (locOf nodes)
    = Some (List.map Some (List.removelast (List.map snd nodes))).
Proof.
  induction nodes as [|[l x] nodes IH]; intros fuel Hc Hf.
  - destruct fuel; [lia|reflexivity].
  - destruct fuel as [|fuel]; [lia|]. destruct Hc as [Hl Hc].
    cbn [forOf locOf Queue.iteratorNext]. unfold Queue.nextOf, Queue.objOf.
    rewrite Hl. cbn [Queue.next Queue.obj].
    destruct nodes as [|[l1 x1] nodes].
    + reflexivity.
    + cbn [locOf notSet isSet negb Queue.done Queue.value].
      change (locOf ((l1, x1) :: nodes)) with (Some l1) in IH.
      rewrite IH by (cbn in Hf |- *; try exact Hc; lia). reflexivity.
Qed.

(** X23. The iterator reports the last element together with
    [done: true], so a [for ... of] loop over a queue does not visit
    it: after any calls, the loop visits the elements that [popFront]
    would take out, in the same order, but for the last one. *)
Theorem for_of_skips_last_element (cs : list (QueueCall T)) :
  let st := snd (queueCalls cs newQueue) in
  let fuel := S (List.length (fst st)) in
  exists xs : list T,
    drain fuel st = Some (List.map Some xs)
    /\ forOf fuel (fst st) (Queue.iterator st)
       = Some (List.map Some (List.removelast xs)).
Proof.
  intros st fuel.
  destruct (holds_queueCalls cs newQueue [] true holds_new)
    as (nodes & attached & H).
  fold st in H. pose proof H as (Hc & Hnd & Hh & _).
  pose proof (chain_length _ _ Hc Hnd) as Hlen.
  exists (List.map snd nodes). split.
  - apply (drain_holds nodes fuel st attached H). subst fuel. lia.
  - unfold Queue.iterator. rewrite Hh.
    apply forOf_chain; [exact Hc|subst fuel; lia].
Qed.

End QueueTheorems.

Lemma queue_is_fifo_witness :
  fst (queueCalls
         [QPushBack 1; QPushBack 2; QPushFront 0; QPopFront; QPopFront;
          QIsEmpty; QPopFront; QPopFront; QIsEmpty]
         newQueue)
  = [QVoid; QVoid; QVoid; QPopped (Some 0); QPopped (Some 1); QEmpty false;
     QPopped (Some 2); QPopped None; QEmpty true].
Proof.
  rewrite queue_is_fifo; reflexivity.
Defined.

Lemma pushFront_on_empty_queue_is_lost_witness :
  fst (queueCalls
         [QPushFront "x"; QPushBack "y"; QPopFront; QPopFront; QIsEmpty]
         (snd (queueCalls [QPushBack "a"; QPopFront] newQueue)))
  = [QVoid; QVoid; QPopped (Some "y"); QPopped None; QEmpty true].
Proof.
  apply (pushFront_on_empty_queue_is_lost [QPushBack "a"; QPopFront] "x" "y").
  reflexivity.
Defined.

(** Three elements, of which the loop visits two. *)
Example for_of_three_elements :
  let st := snd (queueCalls [QPushBack "a"; QPushBack "b"; QPushBack "c"]
                   newQueue) in
  forOf 4 (fst st) (Queue.iterator st) = Some [Some "a"; Some "b"]
  /\ drain 4 st = Some [Some "a"; Some "b"; Some "c"].
Proof. split; reflexivity. Qed.

(** ** The pool *)

Section PoolFacts.

Context {T W : Type}.

Variable createElement : W -> T * W.

Lemma poolAgrees_call (c : PoolCall) run model :
  poolAgrees run model ->
  poolAgrees (poolCall createElement c run) (freeListCall createElement c model).
Proof.
  destruct run as [objects [queue w]], model as [[handed free] w'].
  intros (Hobj & <- & nodes & Hq & Hm).
  destruct c as [|k]; cbn [poolCall freeListCall].
  - unfold Pool.get. rewrite (holds_isEmpty queue nodes true Hq).
    destruct nodes as [|[l v] nodes], free as [|x free]; try discriminate.
    + destruct (createElement w) as [x w1]. cbn [poolAgrees].
      split; [|split; [reflexivity|now exists []]].
      apply List.Forall2_app; [exact Hobj|]. repeat constructor.
    + injection Hm as -> Hm.
      destruct (holds_popFront queue l (Some x) nodes true Hq)
        as (queue' & -> & Hq').
      cbn [poolAgrees]. split; [|split; [reflexivity|now exists nodes]].
      apply List.Forall2_app; [exact Hobj|]. repeat constructor.
  - destruct (objects !! k) as [o|] eqn:Eo.
    + destruct (handed !! k) as [x|] eqn:Ex.
      2:{ apply lookup_ge_None in Ex. apply lookup_lt_Some in Eo.
          apply List.Forall2_length in Hobj. lia. }
      assert (Ho : handsOut o x).
      { clear - Hobj Eo Ex. revert k Eo Ex.
        induction Hobj as [|o' x' objects handed H _ IH]; intros k Eo Ex;
          [discriminate|].
        destruct k as [|k]; [|exact (IH k Eo Ex)].
        cbn in Eo, Ex. congruence. }
      destruct Ho as [_ Hdone]. rewrite Hdone. cbn [poolAgrees].
      split; [exact Hobj|split; [reflexivity|]].
      destruct nodes as [|n nodes].
      * exists [(List.length (fst queue), Some x)]. split.
        -- eapply holds_pushBack_detached;
             [exact Hq|exact (holds_empty_tail queue true Hq)].
        -- destruct free; [reflexivity|discriminate].
      * eexists. split.
        -- apply holds_pushBack_attached; [exact Hq|discriminate].
        -- rewrite !List.map_app, Hm. reflexivity.
    + destruct (handed !! k) as [x|] eqn:Ex.
      { apply lookup_ge_None in Eo. apply lookup_lt_Some in Ex.
        apply List.Forall2_length in Hobj. lia. }
      cbn [poolAgrees]. split; [exact Hobj|split; [reflexivity|]].
      now exists nodes.
Qed.

(** X24. Whatever the order of the calls of [get] and of the callbacks,
    the pool hands out the items that a list of waiting items would:
    [get] takes the item that was given back the longest ago, and it
    calls [createElement] only when no item waits.  An item whose
    callback is called twice waits twice, and is handed out twice. *)
Theorem pool_follows_free_list (cs : list PoolCall) (w : W) :
  List.map Pool.item (fst (poolCalls createElement cs w))
  = List.map Some (fst (fst (freeListCalls createElement cs w)))
  /\ snd (snd (poolCalls createElement cs w))
     = snd (freeListCalls createElement cs w).
Proof.
  assert (H : poolAgrees (poolCalls createElement cs w)
                (freeListCalls createElement cs w)).
  { unfold poolCalls, freeListCalls.
    assert (H0 : poolAgrees (@nil (Pool.PoolObject T W), Pool.new (T:=T) w)
                   ([], [], w)).
    { split; [constructor|split; [reflexivity|]].
      exists []. split; [apply holds_new|reflexivity]. }
    revert H0. generalize (@nil (Pool.PoolObject T W), Pool.new (T:=T) w).
    generalize (@nil T, @nil T, w).
    induction cs as [|c cs IH]; intros model run H0; [exact H0|].
    cbn [List.fold_left]. apply IH. now apply poolAgrees_call. }
  destruct (poolCalls createElement cs w) as [objects [queue w1]].
  destruct (freeListCalls createElement cs w) as [[handed free] w2].
  destruct H as (Hobj & -> & _). cbn [fst snd]. split; [|reflexivity].
  induction Hobj as [|o x objects handed [Hi _] _ IH]; [reflexivity|].
  cbn [List.map]. now rewrite Hi, IH.
Qed.

End PoolFacts.

(** A pool of numbered items: the second [get] comes after the first
    item was given back, and the item given back twice goes out
    twice. *)
Example pool_of_counters :
  List.map Pool.item
    (fst (poolCalls (fun n : nat => (n, S n))
            [PGet; PDone 0; PGet; PGet; PDone 2; PDone 2; PGet; PGet; PGet]
            O))
  = [Some 0; Some 0; Some 1; Some 1; Some 1; Some 2]%nat.
Proof. reflexivity. Qed.

(** ** [logError] *)

(** X25. [logError] does not log a missing error: on [null] or
    [undefined] it throws a [TypeError] after it has drawn the
    identifier and before it logs anything.  On an error object it
    returns an identifier of eight uppercase hexadecimal digits and
    logs one message, which starts with that identifier and ends with
    the stack, or with the message when there is no stack. *)
Theorem logError_of_null_throws
    (err : option ErrorObject) (e : Entropy) (logged : list string) :
  (err = None ->
   logError err e logged
   = (Throw TypeError, (snd (createRandHexStringSync 8 e), logged)))
  /\ (forall errObj, err = Some errObj ->
      exists errorID middle,
        logError err e logged
        = (Return errorID,
           (snd (createRandHexStringSync 8 e),
            (logged
             ++ [("[Error " ++ errorID ++ "]: " ++ middle
                  ++ match stack errObj with
                     | Some s => s
                     | None => render (message errObj)
                     end)%string])%list))
        /\ errorID = fst (createRandHexStringSync 8 e)
        /\ String.length errorID = 8%nat
        /\ allChars isUpperHex errorID = true).
Proof.
  destruct (createRandHexStringSync_text 8 e ltac:(lia)) as [Hl Hu].
  unfold logError. destruct (createRandHexStringSync 8 e) as [errorID e'].
  cbn [fst snd] in *. split.
  - now intros ->.
  - intros errObj ->.
    exists errorID,
      ((if isSet (status errObj)
        then "Status " ++ match status errObj with
                          | Some n => toString10 n
                          | None => "undefined"
                          end ++ ", "
        else "") ++ String LF "").
    split; [|split; [reflexivity|split; [exact Hl|exact Hu]]].
    cbn [notSet isSet negb]. do 3 f_equal.
    destruct (stack errObj) as [s|]; cbn [notSet isSet negb render];
      now rewrite !append_assoc.
Qed.

Lemma logError_of_null_throws_witness :
  logError None (fun i => Z.of_nat i) ["earlier"]
  = (Throw TypeError,
     (snd (createRandHexStringSync 8 (fun i => Z.of_nat i)), ["earlier"]))
  /\ fst (logError (Some (mkErrorObject (Some 4) (Some "denied") None))
            (fun i => Z.of_nat i * 59) [])
     = Return "003B76B1".
Proof.
  split.
  - apply (proj1 (logError_of_null_throws None (fun i => Z.of_nat i)
                    ["earlier"])). reflexivity.
  - destruct (proj2 (logError_of_null_throws
                       (Some (mkErrorObject (Some 4) (Some "denied") None))
                       (fun i => Z.of_nat i * 59) []) _ eq_refl)
      as (errorID & middle & -> & -> & _).
    vm_compute. reflexivity.
Defined.
